(** * theanets.activations: a shallow embedding and its properties

    The module [theanets/activations.py] builds activation functions for
    network layers: a table of stateless transforms, three parametric classes
    ([Prelu], [LGrelu], [Maxout]) owning Theano shared variables, and the
    entry point [build] with its local helper [compose].

    Conventions of the embedding.
    - Numbers are real numbers ([R]); 0.1 and 1e-6 are the exact rationals.
    - A symbolic tensor is a list of rows: the last axis is kept, the leading
      axes are flattened.  Every operation of the module works along the last
      axis and broadcasts over the leading ones, so nothing is lost.
    - Python objects that are mutated after creation live in a store
      ([State]): Theano shared variables and the attributes bolted onto
      function objects.  Code runs in a state-and-exception monad [M]; an
      exception does not roll the store back.
    - Building the expression graph of a transform and evaluating it are
      identified: [call] reads the shared variables from the store. *)

From Stdlib Require Import Reals Lra Lia ZArith Ascii String.
From stdpp Require Import gmap strings list pretty.

Open Scope R_scope.

(** ** Python values, exceptions *)

(** The Python values that occur as keyword arguments and as [name]
    attributes. *)
#[local] Set Warnings "-register-all".
Inductive PyVal :=
  | PNone
  | PInt (z : Z)
  | PStr (s : string)
  | PList (l : list PyVal).

Inductive exn :=
  | TypeError
  | ValueError
  | KeyError (key : string)
  | AttributeError (attr : string)
  | NotImplementedError
  | ShapeError                       (* dimension mismatch in the tensor engine *)
  | UnknownActivation (key : string) (* the registry has no such key *)
  | OutOfFuel.                       (* artefact of the model, see [build_fuel_enough] *)

Inductive result (A : Type) :=
  | Ok (a : A)
  | Raise (e : exn).
Arguments Ok {A} a.
Arguments Raise {A} e.

Definition is_ok {A} (r : result A) : bool :=
  match r with Ok _ => true | Raise _ => false end.

#[global] Instance result_ret : MRet result := @Ok.
#[global] Instance result_bind : MBind result := fun A B f r =>
  match r with Ok a => f a | Raise e => Raise e end.
#[global] Instance result_fmap : FMap result := fun A B f r =>
  match r with Ok a => Ok (f a) | Raise e => Raise e end.

(** [mapM] specialised to [result], written out so that it computes. *)
Fixpoint traverse {A B} (f : A -> result B) (l : list A) : result (list B) :=
  match l with
  | [] => Ok []
  | a :: l' => b ← f a; bs ← traverse f l'; Ok (b :: bs)
  end.

(** ** Strings: what [in], [split] and [%s] do *)

Definition plus_char : ascii := "+"%char.

(** ['+' in name] *)
Fixpoint contains_char (c : ascii) (s : string) : bool :=
  match s with
  | EmptyString => false
  | String a s' => if decide (a = c) then true else contains_char c s'
  end.

(** [name.split('+')]: never empty, one more piece than separators. *)
Fixpoint split_char (c : ascii) (s : string) : list string :=
  match s with
  | EmptyString => [EmptyString]
  | String a s' =>
      if decide (a = c) then EmptyString :: split_char c s'
      else match split_char c s' with
           | h :: t => String a h :: t
           | [] => [String a EmptyString]
           end
  end.

Fixpoint join (sep : string) (l : list string) : string :=
  match l with
  | [] => EmptyString
  | [s] => s
  | s :: l' => s +:+ sep +:+ join sep l'
  end.

Definition hex_digit (n : N) : ascii :=
  match n with
  | 0 => "0" | 1 => "1" | 2 => "2" | 3 => "3" | 4 => "4" | 5 => "5"
  | 6 => "6" | 7 => "7" | 8 => "8" | 9 => "9" | 10 => "a" | 11 => "b"
  | 12 => "c" | 13 => "d" | 14 => "e" | _ => "f"
  end%N%char.

(** [repr] of one character of a [str] inside quotes [q] (ASCII; bytes
    above 127 are taken to be parts of printable characters). *)
Definition repr_char (q : ascii) (a : ascii) : string :=
  let n := N_of_ascii a in
  if decide (a = "\"%char) then "\\"
  else if decide (a = q) then String "\"%char (String q EmptyString)
  else if decide (n = 9%N) then "\t"
  else if decide (n = 10%N) then "\n"
  else if decide (n = 13%N) then "\r"
  else if decide (n < 32 ∨ n = 127)%N
       then String "\"%char (String "x"%char
              (String (hex_digit (n / 16)) (String (hex_digit (n mod 16)) EmptyString)))
  else String a EmptyString.

Fixpoint concat_map_chars (f : ascii -> string) (s : string) : string :=
  match s with
  | EmptyString => EmptyString
  | String a s' => f a +:+ concat_map_chars f s'
  end.

Definition squote : ascii := "'"%char.
Definition dquote : ascii := Ascii.ascii_of_N 34.

Definition repr_str (s : string) : string :=
  let q := if contains_char squote s && negb (contains_char dquote s)
           then dquote else squote in
  String q (concat_map_chars (repr_char q) s) +:+ String q EmptyString.

(** [repr(v)] *)
Fixpoint py_repr (v : PyVal) : string :=
  match v with
  | PNone => "None"
  | PInt z => pretty z
  | PStr s => repr_str s
  | PList l => "[" +:+ join ", " (map py_repr l) +:+ "]"
  end.

(** [str(v)], which is what a [%s] conversion inserts. *)
Definition py_str (v : PyVal) : string :=
  match v with
  | PStr s => s
  | _ => py_repr v
  end.

(** ['%s(%s)' % (x, y)] *)
Definition format_call (x y : PyVal) : string :=
  py_str x +:+ "(" +:+ py_str y +:+ ")".

(** ** The tensor engine

    What the Theano operators used by the module compute.  Dimensions that
    are not broadcastable must agree exactly (Theano's rule for shared
    variables and for symbolic inputs), otherwise the engine raises. *)

Abbreviation row := (list R) (only parsing).
Abbreviation tensor := (list (list R)) (only parsing).          (* shape (..., n), leading axes flattened *)
Abbreviation tensor3 := (list (list (list R))) (only parsing).  (* shape (..., n, p) *)
Abbreviation col := (list R) (only parsing).   (* a reduction with keepdims: one number per row *)

(** The value of a shared variable: [np.ones] is called with a 1-tuple or a
    2-tuple only. *)
Inductive ndarray :=
  | Vec (v : row)
  | Mat (m : list row).

Fixpoint zip_exact {A B C} (f : A -> B -> result C) (l : list A) (k : list B)
  : result (list C) :=
  match l, k with
  | [], [] => Ok []
  | a :: l', b :: k' => c ← f a b; cs ← zip_exact f l' k'; Ok (c :: cs)
  | _, _ => Raise ShapeError
  end.

Definition t_map (f : R -> R) (x : tensor) : tensor := map (map f) x.
Definition t_abs : tensor -> tensor := t_map Rabs.

(** tensor (op) python scalar, and python scalar (op) tensor *)
Definition t_scalar_r (f : R -> R -> R) (x : tensor) (c : R) : tensor :=
  t_map (fun v => f v c) x.
Definition t_scalar_l (f : R -> R -> R) (c : R) (x : tensor) : tensor :=
  t_map (fun v => f c v) x.

(** two tensors of the same shape *)
Definition row_op (f : R -> R -> R) (r s : row) : result row :=
  zip_exact (fun a b => Ok (f a b)) r s.
Definition t_op (f : R -> R -> R) (x y : tensor) : result tensor :=
  zip_exact (row_op f) x y.

(** a vector (op) a tensor: the vector runs along the last axis *)
Definition t_vec_l (f : R -> R -> R) (v : row) (x : tensor) : result tensor :=
  traverse (fun r => row_op f v r) x.

(** a tensor (op) a keepdims reduction of the same tensor *)
Definition t_col_op (f : R -> R -> R) (x : tensor) (c : col) : result tensor :=
  zip_exact (fun r ci => Ok (map (fun v => f v ci) r)) x c.

Definition row_sum (r : row) : R := fold_right Rplus 0 r.
Definition row_mean (r : row) : R := row_sum r / INR (length r).
Definition row_std (r : row) : R :=
  let m := row_mean r in sqrt (row_mean (map (fun v => (v - m) * (v - m)) r)).
Definition row_max (r : row) : result R :=
  match r with
  | [] => Raise ValueError
  | v :: vs => Ok (fold_left Rmax vs v)
  end.

Definition t_sum_keep (x : tensor) : col := map row_sum x.
Definition t_mean_keep (x : tensor) : col := map row_mean x.
Definition t_std_keep (x : tensor) : col := map row_std x.
Definition t_max_keep (x : tensor) : result col := traverse row_max x.
Definition col_add (c : col) (e : R) : col := map (fun v => v + e) c.

(** [x[..., None]]: a new last axis of size one, broadcastable *)
Definition t_expand_last (x : tensor) : tensor3 := map (map (fun v => [v])) x.

(** a size-one broadcastable last axis against a row of a matrix *)
Definition bc_row (f : R -> R -> R) (xr mr : row) : result row :=
  match xr with
  | [v] => Ok (map (f v) mr)
  | _ => Raise ShapeError
  end.

(** an expanded tensor (..., n, 1) (op) a matrix (n, p) *)
Definition t3_mat_op (f : R -> R -> R) (x3 : tensor3) (m : list row) : result tensor3 :=
  traverse (fun u => zip_exact (bc_row f) u m) x3.

(** a tensor (..., n, p) (op) a vector (p,) *)
Definition t3_vec_r (f : R -> R -> R) (x3 : tensor3) (v : row) : result tensor3 :=
  traverse (traverse (fun r => row_op f r v)) x3.

(** [.max(axis=-1)] *)
Definition t3_max_last (x3 : tensor3) : result tensor :=
  traverse (traverse row_max) x3.

(** [np.ones(shape, FLOAT)]: every dimension must be an integer, and none
    may be negative. *)
Definition as_int (v : PyVal) : result Z :=
  match v with
  | PInt z => Ok z
  | _ => Raise TypeError
  end.

Definition as_dim (z : Z) : result nat :=
  if decide (z < 0)%Z then Raise ValueError else Ok (Z.to_nat z).

Definition np_ones_vec (d : PyVal) : result ndarray :=
  z ← as_int d; n ← as_dim z; Ok (Vec (repeat 1 n)).

Definition np_ones_mat (d1 d2 : PyVal) : result ndarray :=
  z1 ← as_int d1; z2 ← as_int d2;
  n ← as_dim z1; p ← as_dim z2;
  Ok (Mat (repeat (repeat 1 p) n)).

(** [array * c] *)
Definition nd_scale (a : ndarray) (c : R) : ndarray :=
  match a with
  | Vec v => Vec (map (fun e => e * c) v)
  | Mat m => Mat (map (map (fun e => e * c)) m)
  end.

(** ** The stateless transforms of the table in [build] *)

Definition sigmoid (v : R) : R := 1 / (1 + exp (- v)).
Definition softplus (v : R) : R := ln (1 + exp v).
Definition eps : R := 1 / 1000000.       (* TT.cast(1e-6, FLOAT) *)

(** [z = TT.exp(x - x.max(axis=-1, keepdims=True)); z / z.sum(axis=-1, keepdims=True)] *)
Definition softmax (x : tensor) : result tensor :=
  m ← t_max_keep x;
  d ← t_col_op Rminus x m;
  let z := t_map exp d in
  t_col_op Rdiv z (t_sum_keep z).

(** [lambda x: (x + abs(x)) / 2] *)
Definition relu (x : tensor) : result tensor :=
  s ← t_op Rplus x (t_abs x);
  Ok (t_scalar_r Rdiv s 2).

(** [lambda x: (1 + x - abs(x - 1)) / 2] *)
Definition rect_max (x : tensor) : result tensor :=
  d ← t_op Rminus (t_scalar_l Rplus 1 x) (t_abs (t_scalar_r Rminus x 1));
  Ok (t_scalar_r Rdiv d 2).

(** [lambda x: (1 + abs(x) - abs(x - 1)) / 2] *)
Definition rect_minmax (x : tensor) : result tensor :=
  d ← t_op Rminus (t_scalar_l Rplus 1 (t_abs x)) (t_abs (t_scalar_r Rminus x 1));
  Ok (t_scalar_r Rdiv d 2).

(** [lambda x: x - x.mean(axis=-1, keepdims=True)] *)
Definition norm_mean (x : tensor) : result tensor :=
  t_col_op Rminus x (t_mean_keep x).

(** [lambda x: x / (abs(x).max(axis=-1, keepdims=True) + TT.cast(1e-6, FLOAT))] *)
Definition norm_max (x : tensor) : result tensor :=
  m ← t_max_keep (t_abs x);
  t_col_op Rdiv x (col_add m eps).

(** [lambda x: x / (x.std(axis=-1, keepdims=True) + TT.cast(1e-6, FLOAT))] *)
Definition norm_std (x : tensor) : result tensor :=
  t_col_op Rdiv x (col_add (t_std_keep x) eps).

(** [lambda x: (x - x.mean(...)) / (x.std(...) + TT.cast(1e-6, FLOAT))] *)
Definition norm_z (x : tensor) : result tensor :=
  n ← t_col_op Rminus x (t_mean_keep x);
  t_col_op Rdiv n (col_add (t_std_keep x) eps).

(** ** Objects and the store *)

Definition loc := nat.

(** The layer is an external collaborator: the module reads [layer.size]
    and calls [layer._fmt(...)] to name a shared variable. *)
Record Layer := mkLayer {
  layer_size : Z;
  layer_fmt : string -> string;
}.

(** A Theano shared variable, as created by [theano.shared(value, name=...)]. *)
Record SharedVar := mkShared {
  sv_name : string;
  sv_value : ndarray;
}.

(** The two attributes the module bolts onto function objects; [None] is an
    attribute that has not been set. *)
Record Attrs := mkAttrs {
  a_name : option PyVal;
  a_params : option (list loc);
}.
Definition no_attrs : Attrs := mkAttrs None None.

Inductive Cls := CActivation | CPrelu | CLGrelu | CMaxout.

(** An instance of [Activation] or of one of its subclasses.  [i_tensors]
    holds the attributes bound to shared variables ([leak], [gain],
    [slope], [intercept]). *)
Record Instance := mkInstance {
  i_cls : Cls;
  i_name : string;
  i_layer : Layer;
  i_kwargs : gmap string PyVal;
  i_params : list loc;
  i_pieces : option PyVal;
  i_tensors : gmap string loc;
}.

(** Function objects that exist once per process: [TT.tanh],
    [TT.nnet.sigmoid], the module-level [softmax], [TT.nnet.softplus]. *)
Inductive global := TT_tanh | TT_nnet_sigmoid | softmax_fn | TT_nnet_softplus.

#[global] Instance global_eq_dec : EqDecision global.
Proof. solve_decision. Defined.

(** A function object is a global one or the value of a lambda expression,
    which has an identity of its own ([id]) and a body.  What [build]
    returns is a function object or an instance. *)
Inductive func :=
  | Global (g : global)
  | Lambda (id : nat) (body : lam)
with lam :=
  | L_linear | L_relu | L_rect_max | L_rect_minmax
  | L_norm_mean | L_norm_max | L_norm_std | L_norm_z
  | L_compose (a b : activation)
with activation :=
  | AFunc (f : func)
  | AInst (i : Instance).

(** The identity of a function object. *)
Definition func_id (f : func) : global + nat :=
  match f with
  | Global g => inl g
  | Lambda id _ => inr id
  end.

Record State := mkState {
  shared : list SharedVar;       (* shared variables, by location *)
  lambdas : list Attrs;          (* attributes of lambda objects, by identity *)
  globals : global -> Attrs;     (* attributes of the global function objects *)
}.

Definition M (A : Type) : Type := State -> result A * State.

#[global] Instance M_ret : MRet M := fun A a st => (Ok a, st).
#[global] Instance M_bind : MBind M := fun A B f m st =>
  match m st with
  | (Ok a, st') => f a st'
  | (Raise e, st') => (Raise e, st')
  end.

Definition raise {A} (e : exn) : M A := fun st => (Raise e, st).
Definition lift {A} (r : result A) : M A := fun st => (r, st).

(** [theano.shared(value, name=name)] *)
Definition theano_shared (value : ndarray) (name : string) : M loc := fun st =>
  (Ok (length (shared st)),
   mkState (shared st ++ [mkShared name value]) (lambdas st) (globals st)).

(** the value of a shared variable that the engine uses as a vector; the
    rank of a shared variable is fixed when it is created *)
Definition read_vec (l : loc) : M row := fun st =>
  match sv_value <$> shared st !! l with
  | Some (Vec v) => (Ok v, st)
  | _ => (Raise ShapeError, st)
  end.

Definition read_mat (l : loc) : M (list row) := fun st =>
  match sv_value <$> shared st !! l with
  | Some (Mat m) => (Ok m, st)
  | _ => (Raise ShapeError, st)
  end.

(** a lambda expression is evaluated: a new function object *)
Definition new_lambda (body : lam) : M func := fun st =>
  (Ok (Lambda (length (lambdas st)) body),
   mkState (shared st) (lambdas st ++ [no_attrs]) (globals st)).

Definition func_attrs (st : State) (f : func) : option Attrs :=
  match f with
  | Global g => Some (globals st g)
  | Lambda id _ => lambdas st !! id
  end.

Definition update_attrs (upd : Attrs -> Attrs) (f : func) : M () := fun st =>
  match f with
  | Global g =>
      (Ok (), mkState (shared st) (lambdas st)
                (fun g' => if decide (g' = g) then upd (globals st g) else globals st g'))
  | Lambda id _ =>
      (Ok (), mkState (shared st) (alter upd id (lambdas st)) (globals st))
  end.

(** [f.name = v] and [f.params = ps] *)
Definition set_name (f : func) (v : PyVal) : M () :=
  update_attrs (fun a => mkAttrs (Some v) (a_params a)) f.
Definition set_params (f : func) (ps : list loc) : M () :=
  update_attrs (fun a => mkAttrs (a_name a) (Some ps)) f.

(** [a.name] *)
Definition get_name (a : activation) : M PyVal := fun st =>
  match a with
  | AInst i => (Ok (PStr (i_name i)), st)
  | AFunc f =>
      match func_attrs st f ≫= a_name with
      | Some v => (Ok v, st)
      | None => (Raise (AttributeError "name"), st)
      end
  end.

(** [a.params] *)
Definition get_params (a : activation) : M (list loc) := fun st =>
  match a with
  | AInst i => (Ok (i_params i), st)
  | AFunc f =>
      match func_attrs st f ≫= a_params with
      | Some ps => (Ok ps, st)
      | None => (Raise (AttributeError "params"), st)
      end
  end.

(** [self.<attr>] for an attribute bound to a shared variable *)
Definition get_tensor (self : Instance) (attr : string) : M loc :=
  match i_tensors self !! attr with
  | Some l => mret l
  | None => raise (AttributeError attr)
  end.

(** ** The classes *)

(** [Activation.__init__(self, name, layer, **kwargs)] *)
Definition Activation_init (cls : Cls) (name : string) (layer : Layer)
    (kwargs : gmap string PyVal) : Instance :=
  mkInstance cls name layer kwargs [] None ∅.

(** [self.<attr> = v] and [self.params.append(v)] *)
Definition set_tensor (attr : string) (l : loc) (self : Instance) : Instance :=
  mkInstance (i_cls self) (i_name self) (i_layer self) (i_kwargs self)
    (i_params self) (i_pieces self) (<[attr := l]> (i_tensors self)).
Definition params_append (l : loc) (self : Instance) : Instance :=
  mkInstance (i_cls self) (i_name self) (i_layer self) (i_kwargs self)
    (i_params self ++ [l]) (i_pieces self) (i_tensors self).
Definition set_pieces (v : PyVal) (self : Instance) : Instance :=
  mkInstance (i_cls self) (i_name self) (i_layer self) (i_kwargs self)
    (i_params self) (Some v) (i_tensors self).

(** [np.ones((self.layer.size, ), FLOAT)] *)
Definition ones_of_layer (self : Instance) : result ndarray :=
  np_ones_vec (PInt (layer_size (i_layer self))).

(** [Prelu.__init__] *)
Definition Prelu_init (name : string) (layer : Layer) (kwargs : gmap string PyVal)
  : M Instance :=
  let self := Activation_init CPrelu name layer kwargs in
  ones ← lift (ones_of_layer self);
  leak ← theano_shared (nd_scale ones (1 / 10)) (layer_fmt (i_layer self) "leak");
  let self := set_tensor "leak" leak self in
  let self := params_append leak self in
  mret self.

(** [LGrelu.__init__] *)
Definition LGrelu_init (name : string) (layer : Layer) (kwargs : gmap string PyVal)
  : M Instance :=
  let self := Activation_init CLGrelu name layer kwargs in
  ones ← lift (ones_of_layer self);
  gain ← theano_shared ones (layer_fmt (i_layer self) "gain");
  let self := set_tensor "gain" gain self in
  let self := params_append gain self in
  ones ← lift (ones_of_layer self);
  leak ← theano_shared (nd_scale ones (1 / 10)) (layer_fmt (i_layer self) "leak");
  let self := set_tensor "leak" leak self in
  let self := params_append leak self in
  mret self.

(** [Maxout.__init__] *)
Definition Maxout_init (name : string) (layer : Layer) (kwargs : gmap string PyVal)
  : M Instance :=
  let self := Activation_init CMaxout name layer kwargs in
  pieces ← match kwargs !! "pieces" with
           | Some v => mret v
           | None => raise (KeyError "pieces")
           end;
  let self := set_pieces pieces self in
  m ← lift (np_ones_mat (PInt (layer_size (i_layer self))) pieces);
  slope ← theano_shared m (layer_fmt (i_layer self) "slope");
  let self := set_tensor "slope" slope self in
  let self := params_append slope self in
  b ← lift (np_ones_vec pieces);
  intercept ← theano_shared b (layer_fmt (i_layer self) "intercept");
  let self := set_tensor "intercept" intercept self in
  let self := params_append intercept self in
  mret self.

(** [cls(name, layer, **kwargs)] *)
Definition new (cls : Cls) (name : string) (layer : Layer) (kwargs : gmap string PyVal)
  : M Instance :=
  match cls with
  | CActivation => mret (Activation_init CActivation name layer kwargs)
  | CPrelu => Prelu_init name layer kwargs
  | CLGrelu => LGrelu_init name layer kwargs
  | CMaxout => Maxout_init name layer kwargs
  end.

(** [Prelu.__call__]: [(x + abs(x)) / 2 + self.leak * (x - abs(x)) / 2] *)
Definition Prelu_call (self : Instance) (x : tensor) : M tensor :=
  s ← lift (t_op Rplus x (t_abs x));
  let pos := t_scalar_r Rdiv s 2 in
  leak ← get_tensor self "leak" ≫= read_vec;
  d ← lift (t_op Rminus x (t_abs x));
  ld ← lift (t_vec_l Rmult leak d);
  lift (t_op Rplus pos (t_scalar_r Rdiv ld 2)).

(** [LGrelu.__call__]:
    [self.gain * (x + abs(x)) / 2 + self.leak * (x - abs(x)) / 2] *)
Definition LGrelu_call (self : Instance) (x : tensor) : M tensor :=
  gain ← get_tensor self "gain" ≫= read_vec;
  s ← lift (t_op Rplus x (t_abs x));
  gs ← lift (t_vec_l Rmult gain s);
  let pos := t_scalar_r Rdiv gs 2 in
  leak ← get_tensor self "leak" ≫= read_vec;
  d ← lift (t_op Rminus x (t_abs x));
  ld ← lift (t_vec_l Rmult leak d);
  lift (t_op Rplus pos (t_scalar_r Rdiv ld 2)).

(** [Maxout.__call__]:
    [(x[..., None] * self.slope + self.intercept).max(axis=-1)] *)
Definition Maxout_call (self : Instance) (x : tensor) : M tensor :=
  slope ← get_tensor self "slope" ≫= read_mat;
  xs ← lift (t3_mat_op Rmult (t_expand_last x) slope);
  intercept ← get_tensor self "intercept" ≫= read_vec;
  y ← lift (t3_vec_r Rplus xs intercept);
  lift (t3_max_last y).

(** [self(x)], dispatched on the class; the base class raises. *)
Definition Instance_call (self : Instance) (x : tensor) : M tensor :=
  match i_cls self with
  | CActivation => raise NotImplementedError
  | CPrelu => Prelu_call self x
  | CLGrelu => LGrelu_call self x
  | CMaxout => Maxout_call self x
  end.

Definition global_call (g : global) (x : tensor) : result tensor :=
  match g with
  | TT_tanh => Ok (t_map tanh x)
  | TT_nnet_sigmoid => Ok (t_map sigmoid x)
  | softmax_fn => softmax x
  | TT_nnet_softplus => Ok (t_map softplus x)
  end.

(** [a(x)] for whatever [build] returns.  The body of the lambda made by
    [compose] is [b(a(z))]. *)
Fixpoint call (a : activation) (x : tensor) : M tensor :=
  match a with
  | AFunc f => call_func f x
  | AInst i => Instance_call i x
  end
with call_func (f : func) (x : tensor) : M tensor :=
  match f with
  | Global g => lift (global_call g x)
  | Lambda _ body => call_lam body x
  end
with call_lam (body : lam) (x : tensor) : M tensor :=
  match body with
  | L_linear => mret x
  | L_relu => lift (relu x)
  | L_rect_max => lift (rect_max x)
  | L_rect_minmax => lift (rect_minmax x)
  | L_norm_mean => lift (norm_mean x)
  | L_norm_max => lift (norm_max x)
  | L_norm_std => lift (norm_std x)
  | L_norm_z => lift (norm_z x)
  | L_compose a b => y ← call a x; call b y
  end.

(** ** The registry

    [Activation] is declared with the metaclass [util.Registrar]; the file
    [util.py] is not part of the sources at hand. *)

(** Modelled from the spec: the registry of [util.Registrar], missing from
    the sources.  Every parametric variant is registered under its canonical
    key (the lower-cased class name) and under its declared alias keys (the
    [__extra_registration_keys__] of the class). *)
Definition registry : gmap string Cls :=
  list_to_map [
    ("prelu", CPrelu); ("leaky-relu", CPrelu);
    ("lgrelu", CLGrelu); ("leaky-gain-relu", CLGrelu);
    ("maxout", CMaxout)
  ].

(** Modelled from the spec: [Activation.build(key, name, layer, **kwargs)]
    of [util.Registrar], missing from the sources.  It resolves the key to a
    constructor and instantiates it with [(name, layer, **kwargs)]; a key
    that is absent fails with an unknown-activation error carrying the key. *)
Definition Registrar_build (key name : string) (layer : Layer)
    (kwargs : gmap string PyVal) : M activation :=
  match registry !! key with
  | Some cls => i ← new cls name layer kwargs; mret (AInst i)
  | None => raise (UnknownActivation key)
  end.

(** ** [build] *)

(** The literal dict of [build].  The lambda expressions in it are evaluated
    anew on every call; the objects that [.get(name)] does not select are
    unreachable at once, so only the selected one is entered in the store
    (by [resolve_entry]). *)
Inductive entry :=
  | E_global (g : global)
  | E_lambda (body : lam).

Definition act_table : gmap string entry :=
  list_to_map [
    ("tanh", E_global TT_tanh);
    ("logistic", E_global TT_nnet_sigmoid);
    ("sigmoid", E_global TT_nnet_sigmoid);
    ("softmax", E_global softmax_fn);
    ("linear", E_lambda L_linear);
    ("softplus", E_global TT_nnet_softplus);
    ("relu", E_lambda L_relu);
    ("rect:max", E_lambda L_rect_max);
    ("rect:minmax", E_lambda L_rect_minmax);
    ("norm:mean", E_lambda L_norm_mean);
    ("norm:max", E_lambda L_norm_max);
    ("norm:std", E_lambda L_norm_std);
    ("norm:z", E_lambda L_norm_z)
  ].

Definition resolve_entry (e : entry) : M func :=
  match e with
  | E_global g => mret (Global g)
  | E_lambda body => new_lambda body
  end.

(** The local function [compose] of [build]:
    [c = lambda z: b(a(z)); c.name = ['%s(%s)' % (b.name, a.name)]; return c] *)
Definition compose (a b : activation) : M activation :=
  c ← new_lambda (L_compose a b);
  bn ← get_name b;
  an ← get_name a;
  set_name c (PList [PStr (format_call bn an)]);;
  mret (AFunc c).

(** [functools.reduce(f, gen)] over a generator: the items are computed one
    at a time, each just before it is folded in. *)
Fixpoint reduce_from {A} (f : A -> A -> M A) (acc : A) (gen : list (M A)) : M A :=
  match gen with
  | [] => mret acc
  | g :: gen' => x ← g; acc' ← f acc x; reduce_from f acc' gen'
  end.

Definition functools_reduce {A} (f : A -> A -> M A) (gen : list (M A)) : M A :=
  match gen with
  | [] => raise TypeError
  | g :: gen' => x ← g; reduce_from f x gen'
  end.

(** The first argument of [build]: a string, or an object that [build]
    returned before. *)
Inductive name_arg :=
  | NStr (s : string)
  | NObj (a : activation).

(** A call of [build].  [layer] is [None] when the call site supplies no
    second positional argument: binding the arguments then fails before the
    body runs.  The recursion is through the generator expression
    [(build(n) for n in name.split('+'))]; [fuel] bounds its depth. *)
Fixpoint build_call (fuel : nat) (name : name_arg) (layer : option Layer)
    (kwargs : gmap string PyVal) : M activation :=
  match fuel with
  | O => raise OutOfFuel
  | S fuel' =>
    match layer with
    | None => raise TypeError      (* missing required positional argument 'layer' *)
    | Some layer =>
      match name with
      | NObj (AInst i) => mret (AInst i)           (* isinstance(name, Activation) *)
      | NObj (AFunc _) => raise TypeError          (* '+' in name: not iterable *)
      | NStr s =>
        if contains_char plus_char s then
          functools_reduce compose
            (map (fun n => build_call fuel' (NStr n) None ∅) (split_char plus_char s))
        else
          match act_table !! s with
          | Some e =>
              act ← resolve_entry e;
              set_name act (PStr s);;
              set_params act [];;
              mret (AFunc act)
          | None => Registrar_build s s layer kwargs
          end
      end
    end
  end.

(** Every sub-name of a split is shorter than the name, so this much fuel
    is never used up (see [build_fuel_enough]). *)
Definition build_fuel (name : name_arg) : nat :=
  match name with
  | NStr s => S (String.length s)
  | NObj _ => 1
  end.

(** [build(name, layer, **kwargs)] *)
Definition build (name : name_arg) (layer : Layer) (kwargs : gmap string PyVal)
  : M activation :=
  build_call (build_fuel name) name (Some layer) kwargs.

(** ** Concrete data for the examples *)

Definition layer3 : Layer := mkLayer 3 (fun s => "hid1." +:+ s).
Definition layer1 : Layer := mkLayer 1 (fun s => "out." +:+ s).
Definition st0 : State := mkState [] [] (fun _ => no_attrs).

(** ** The vocabulary of the properties *)

(** the entry-by-entry meaning of the rectifiers *)
Definition relu_elem (v : R) : R := (v + Rabs v) / 2.
Definition rect_max_elem (v : R) : R := (1 + v - Rabs (v - 1)) / 2.
Definition rect_minmax_elem (v : R) : R := (1 + Rabs v - Rabs (v - 1)) / 2.

(** every row of [x] has [n] entries: the shape of [x] is (..., n) *)
Definition last_axis (n : nat) (x : tensor) : Prop :=
  Forall (fun r => length r = n) x.

(** the entry-by-entry meaning of [Prelu.__call__] *)
Definition prelu_elem (leak v : R) : R :=
  (v + Rabs v) / 2 + leak * (v - Rabs v) / 2.

(** the maximum of a row, with a default for the empty row, on which
    [row_max] raises *)
Definition max_or_zero (c : row) : R :=
  match c with
  | [] => 0
  | v :: vs => fold_left Rmax vs v
  end.

(** the candidates of one unit: [slope[i,k] * x_i + intercept[k]] for every
    piece [k], in the order and with the operand order of the source *)
Definition maxout_pieces (intercept : row) (v : R) (slope_i : row) : row :=
  zip_with Rplus (map (Rmult v) slope_i) intercept.

Definition maxout_unit (intercept : row) (v : R) (slope_i : row) : R :=
  max_or_zero (maxout_pieces intercept v slope_i).

(** a computation that only reads the store *)
Definition read_only {A} (m : M A) : Prop := forall st, snd (m st) = st.

(** [frame st r st'] says what a run from [st] to [st'] with outcome [r] may
    have touched: nothing that existed before, except the global function
    object that is returned; and whatever is new is the returned lambda or a
    learnable tensor listed by the returned instance. *)
Definition frame (st : State) (r : result activation) (st' : State) : Prop :=
  (forall l, (l < length (shared st))%nat -> shared st' !! l = shared st !! l)
  /\ (forall l, (length (shared st) <= l < length (shared st'))%nat ->
        exists i, r = Ok (AInst i) /\ l ∈ i_params i)
  /\ (forall id, (id < length (lambdas st))%nat -> lambdas st' !! id = lambdas st !! id)
  /\ (forall id, (length (lambdas st) <= id < length (lambdas st'))%nat ->
        exists body, r = Ok (AFunc (Lambda id body)))
  /\ (forall g, r <> Ok (AFunc (Global g)) -> globals st' g = globals st g)
  /\ (forall e, r = Raise e -> st' = st).

(** The configurations of [pieces] that the spec calls invalid: absent, a
    non-positive count, a value of the wrong type. *)
Definition pieces_invalid (kwargs : gmap string PyVal) : Prop :=
  match kwargs !! "pieces" with
  | None => True
  | Some (PInt z) => (z <= 0)%Z
  | Some _ => True
  end.

(** What the constructor does reject: [pieces] absent, a negative count, a
    value that is not an integer. *)
Definition pieces_rejected (kwargs : gmap string PyVal) : Prop :=
  match kwargs !! "pieces" with
  | None => True
  | Some (PInt z) => (z < 0)%Z
  | Some _ => True
  end.

(** the exception that each rejected configuration raises *)
Definition pieces_error (kwargs : gmap string PyVal) : exn :=
  match kwargs !! "pieces" with
  | None => KeyError "pieces"
  | Some (PInt _) => ValueError
  | Some _ => TypeError
  end.

(** A leaky-slope-with-gain rectifier and a leaky-slope rectifier on a
    layer of three units, built one after the other in the empty store. *)
Definition lgrelu_and_prelu : M (activation * activation) :=
  a ← new CLGrelu "lgrelu" layer3 ∅;
  b ← new CPrelu "prelu" layer3 ∅;
  mret (AInst a, AInst b).

(** the entry-by-entry meaning of [LGrelu.__call__] *)
Definition lgrelu_elem (gain leak v : R) : R :=
  gain * (v + Rabs v) / 2 + leak * (v - Rabs v) / 2.

(** the shape of a tensor: the length of every row *)
Definition shape (x : list (list R)) : list nat := map length x.

(** [build] two names one after the other *)
Definition build_two (k1 k2 : string) (layer : Layer) (kwargs : gmap string PyVal)
  : M (activation * activation) :=
  a ← build (NStr k1) layer kwargs;
  b ← build (NStr k2) layer kwargs;
  mret (a, b).

(** [build] a name and pass the result to [build] again *)
Definition build_twice (k : string) (layer : Layer) (kwargs : gmap string PyVal)
  : M activation :=
  a ← build (NStr k) layer kwargs;
  build (NObj a) layer kwargs.

(** construct a leaky-slope-with-gain rectifier and then a leaky-slope
    rectifier on the same layer *)
Definition new_lgrelu_prelu (layer : Layer) (kwargs : gmap string PyVal)
  : M (Instance * Instance) :=
  a ← new CLGrelu "lgrelu" layer kwargs;
  b ← new CPrelu "prelu" layer kwargs;
  mret (a, b).

(** one row of [softmax]: shift by the maximum, exponentiate, normalise *)
Definition softmax_row (r : list R) : list R :=
  map (fun e => e / row_sum (map exp (map (fun v => v - max_or_zero r) r)))
    (map exp (map (fun v => v - max_or_zero r) r)).

(** * Properties *)

(** ** The tensor engine *)

Section Engine.
Context {A B C D : Type}.

Lemma traverse_pointwise (f : A -> result B) (g : A -> B) (l : list A) :
  Forall (fun a => f a = Ok (g a)) l -> traverse f l = Ok (map g l).
Proof.
  induction 1 as [|a l Ha _ IH]; simpl; [reflexivity|].
  rewrite Ha, IH. reflexivity.
Qed.

(** Two lists computed from the same list always have the same length. *)
Lemma zip_exact_diag (f : B -> C -> result D) (g : A -> B) (h : A -> C)
    (k : A -> D) (l : list A) :
  Forall (fun a => f (g a) (h a) = Ok (k a)) l ->
  zip_exact f (map g l) (map h l) = Ok (map k l).
Proof.
  induction 1 as [|a l Ha _ IH]; simpl; [reflexivity|].
  rewrite Ha, IH. reflexivity.
Qed.
End Engine.

Lemma row_op_zip_with {A B} (f : R -> R -> R) (g h : A -> B -> R)
    (l : list A) (k : list B) :
  row_op f (zip_with g l k) (zip_with h l k)
  = Ok (zip_with (fun a b => f (g a b) (h a b)) l k).
Proof.
  unfold row_op. revert k.
  induction l as [|a l IH]; intros [|b k]; simpl; try reflexivity.
  rewrite IH. reflexivity.
Qed.

Lemma row_op_map (f : R -> R -> R) (g h : R -> R) (r : row) :
  row_op f (map g r) (map h r) = Ok (map (fun v => f (g v) (h v)) r).
Proof.
  unfold row_op. induction r as [|v r IH]; simpl; [reflexivity|].
  rewrite IH. reflexivity.
Qed.

Lemma row_op_exact (f : R -> R -> R) (l r : row) :
  length l = length r -> row_op f l r = Ok (zip_with f l r).
Proof.
  unfold row_op. revert r.
  induction l as [|a l IH]; intros [|b r] Hlen; simpl in *; try discriminate.
  - reflexivity.
  - rewrite IH by lia. reflexivity.
Qed.

Lemma row_op_mismatch (f : R -> R -> R) (l r : row) :
  length l <> length r -> row_op f l r = Raise ShapeError.
Proof.
  unfold row_op. revert r.
  induction l as [|a l IH]; intros [|b r] Hlen; simpl in *; try reflexivity.
  - congruence.
  - rewrite IH by lia. reflexivity.
Qed.

Lemma t_op_map (f : R -> R -> R) (g h : R -> R) (x : tensor) :
  t_op f (t_map g x) (t_map h x) = Ok (t_map (fun v => f (g v) (h v)) x).
Proof.
  unfold t_op, t_map.
  apply (zip_exact_diag (row_op f) (map g) (map h)
           (map (fun v => f (g v) (h v)))).
  apply Forall_forall. intros r _. apply row_op_map.
Qed.

Lemma t_map_id (x : tensor) : t_map (fun v => v) x = x.
Proof.
  unfold t_map. induction x as [|r x IH]; simpl; [reflexivity|].
  rewrite IH. f_equal. apply map_id.
Qed.

Lemma t_map_map (f g : R -> R) (x : tensor) :
  t_map f (t_map g x) = t_map (fun v => f (g v)) x.
Proof.
  unfold t_map. rewrite map_map. apply map_ext. intros r. apply map_map.
Qed.

Lemma t_map_ext (f g : R -> R) (x : tensor) :
  (forall v, f v = g v) -> t_map f x = t_map g x.
Proof.
  intros H. unfold t_map. apply map_ext. intros r. apply map_ext, H.
Qed.

(** a tensor against an elementwise image of itself *)
Lemma t_op_self_l (f : R -> R -> R) (h : R -> R) (x : tensor) :
  t_op f x (t_map h x) = Ok (t_map (fun v => f v (h v)) x).
Proof.
  rewrite <- (t_map_id x) at 1. apply t_op_map.
Qed.

(** ** The elementwise meaning of the rectifiers *)

Lemma relu_elementwise (x : tensor) : relu x = Ok (t_map relu_elem x).
Proof.
  unfold relu, t_abs. rewrite t_op_self_l. simpl.
  unfold t_scalar_r. rewrite t_map_map. reflexivity.
Qed.

Lemma rect_max_elementwise (x : tensor) : rect_max x = Ok (t_map rect_max_elem x).
Proof.
  unfold rect_max, t_abs, t_scalar_l, t_scalar_r.
  rewrite t_map_map, t_op_map. simpl. rewrite t_map_map. reflexivity.
Qed.

Lemma rect_minmax_elementwise (x : tensor) :
  rect_minmax x = Ok (t_map rect_minmax_elem x).
Proof.
  unfold rect_minmax, t_abs, t_scalar_l, t_scalar_r.
  rewrite !t_map_map, t_op_map. simpl. rewrite t_map_map. reflexivity.
Qed.

Lemma relu_elem_max (v : R) : relu_elem v = Rmax 0 v.
Proof.
  unfold relu_elem, Rmax, Rabs.
  destruct (Rcase_abs v), (Rle_dec 0 v); lra.
Qed.

Lemma rect_max_elem_cases (v : R) :
  (v <= 1 -> rect_max_elem v = v) /\ (v > 1 -> rect_max_elem v = 1).
Proof.
  unfold rect_max_elem, Rabs. destruct (Rcase_abs (v - 1)); split; intros; lra.
Qed.

Lemma rect_minmax_elem_cases (v : R) :
  (v < 0 -> rect_minmax_elem v = 0)
  /\ (0 <= v <= 1 -> rect_minmax_elem v = v)
  /\ (v > 1 -> rect_minmax_elem v = 1).
Proof.
  unfold rect_minmax_elem, Rabs.
  destruct (Rcase_abs (v - 1)), (Rcase_abs v); repeat split; intros; lra.
Qed.

(** ** [build]: argument binding, fuel, and the three branches *)

Lemma split_char_cons (c : ascii) (s : string) :
  exists h t, split_char c s = h :: t.
Proof.
  induction s as [|a s IH]; simpl; [eauto|].
  destruct (decide (a = c)); [eauto|].
  destruct IH as (h & t & ->). eauto.
Qed.

Lemma contains_char_length (c : ascii) (s : string) :
  contains_char c s = true -> (1 <= String.length s)%nat.
Proof. destruct s; simpl; [discriminate | lia]. Qed.

(** A '+'-joined name: the first item of the generator is [build(n)], whose
    argument binding fails, so [reduce] never gets a value. *)
Lemma build_call_plus (fuel : nat) (s : string) (layer : Layer)
    (kwargs : gmap string PyVal) (st : State) :
  contains_char plus_char s = true ->
  build_call (S (S fuel)) (NStr s) (Some layer) kwargs st = (Raise TypeError, st).
Proof.
  intros Hplus. simpl. rewrite Hplus.
  destruct (split_char_cons plus_char s) as (h & t & ->).
  reflexivity.
Qed.

Lemma build_call_simple (fuel : nat) (s : string) (layer : Layer)
    (kwargs : gmap string PyVal) :
  contains_char plus_char s = false ->
  build_call (S fuel) (NStr s) (Some layer) kwargs
  = match act_table !! s with
    | Some e =>
        act ← resolve_entry e;
        set_name act (PStr s);;
        set_params act [];;
        mret (AFunc act)
    | None => Registrar_build s s layer kwargs
    end.
Proof. intros Hplus. simpl. rewrite Hplus. reflexivity. Qed.

(** [build] is total: more fuel than [build_fuel] changes nothing, and the
    artefact [OutOfFuel] is never the outcome. *)
Lemma build_fuel_enough (fuel : nat) (name : name_arg) (layer : Layer)
    (kwargs : gmap string PyVal) (st : State) :
  (build_fuel name <= fuel)%nat ->
  build_call fuel name (Some layer) kwargs st = build name layer kwargs st.
Proof.
  intros Hfuel. unfold build.
  destruct name as [s|[f|i]]; simpl in Hfuel.
  - destruct (contains_char plus_char s) eqn:Hplus.
    + pose proof (contains_char_length _ _ Hplus) as Hlen.
      destruct fuel as [|[|fuel]]; try lia.
      destruct (String.length s) as [|n] eqn:Hn; try lia.
      simpl build_fuel. rewrite Hn.
      rewrite !build_call_plus by assumption. reflexivity.
    + destruct fuel as [|fuel]; [lia|].
      simpl build_fuel.
      rewrite !build_call_simple by assumption. reflexivity.
  - destruct fuel; [lia | reflexivity].
  - destruct fuel; [lia | reflexivity].
Qed.

(** ** The constructors *)

Ltac run_M :=
  unfold mbind, M_bind, mret, M_ret, lift, raise, theano_shared; simpl.

Lemma as_dim_ok (z : Z) : (0 <= z)%Z -> as_dim z = Ok (Z.to_nat z).
Proof. intros H. unfold as_dim. destruct (decide (z < 0)%Z); [lia | reflexivity]. Qed.

Lemma as_dim_neg (z : Z) : (z < 0)%Z -> as_dim z = Raise ValueError.
Proof. intros H. unfold as_dim. destruct (decide (z < 0)%Z); [reflexivity | lia]. Qed.

Lemma np_ones_vec_ok (z : Z) :
  (0 <= z)%Z -> np_ones_vec (PInt z) = Ok (Vec (repeat 1 (Z.to_nat z))).
Proof. intros H. unfold np_ones_vec. simpl. rewrite as_dim_ok by assumption. reflexivity. Qed.

Lemma np_ones_vec_neg (z : Z) : (z < 0)%Z -> np_ones_vec (PInt z) = Raise ValueError.
Proof. intros H. unfold np_ones_vec. simpl. rewrite as_dim_neg by assumption. reflexivity. Qed.

Lemma np_ones_mat_ok (z1 z2 : Z) :
  (0 <= z1)%Z -> (0 <= z2)%Z ->
  np_ones_mat (PInt z1) (PInt z2)
  = Ok (Mat (repeat (repeat 1 (Z.to_nat z2)) (Z.to_nat z1))).
Proof.
  intros H1 H2. unfold np_ones_mat. simpl.
  rewrite !as_dim_ok by assumption. reflexivity.
Qed.

Lemma np_ones_mat_neg (z1 z2 : Z) :
  (z1 < 0 \/ z2 < 0)%Z -> np_ones_mat (PInt z1) (PInt z2) = Raise ValueError.
Proof.
  intros H. unfold np_ones_mat. simpl.
  destruct (decide (z1 < 0)%Z) as [H1|H1].
  - rewrite (as_dim_neg z1) by assumption. reflexivity.
  - rewrite (as_dim_ok z1) by lia. simpl. rewrite (as_dim_neg z2) by lia. reflexivity.
Qed.

Lemma np_ones_mat_not_int (z1 : Z) (v : PyVal) :
  (forall z, v <> PInt z) -> np_ones_mat (PInt z1) v = Raise TypeError.
Proof.
  intros H. unfold np_ones_mat. simpl.
  destruct v; try reflexivity. exfalso. eapply H. reflexivity.
Qed.

#[local] Arguments np_ones_vec : simpl never.
#[local] Arguments np_ones_mat : simpl never.

Lemma scale_ones (c : R) (n : nat) : map (fun e => e * c) (repeat 1 n) = repeat c n.
Proof.
  induction n as [|n IH]; simpl; [reflexivity|].
  rewrite IH. f_equal. lra.
Qed.

Lemma Prelu_init_ok (name : string) (layer : Layer) (kwargs : gmap string PyVal)
    (st : State) :
  (0 <= layer_size layer)%Z ->
  Prelu_init name layer kwargs st
  = (Ok (mkInstance CPrelu name layer kwargs [length (shared st)] None
           (<["leak" := length (shared st)]> ∅)),
     mkState
       (shared st ++
          [mkShared (layer_fmt layer "leak")
             (Vec (repeat (1 / 10) (Z.to_nat (layer_size layer))))])
       (lambdas st) (globals st)).
Proof.
  intros Hsize. unfold Prelu_init, ones_of_layer. simpl.
  rewrite np_ones_vec_ok by assumption. run_M.
  rewrite scale_ones. reflexivity.
Qed.

Lemma Prelu_init_neg (name : string) (layer : Layer) (kwargs : gmap string PyVal)
    (st : State) :
  (layer_size layer < 0)%Z ->
  Prelu_init name layer kwargs st = (Raise ValueError, st).
Proof.
  intros Hsize. unfold Prelu_init, ones_of_layer. simpl.
  rewrite np_ones_vec_neg by assumption. reflexivity.
Qed.

Lemma LGrelu_init_ok (name : string) (layer : Layer) (kwargs : gmap string PyVal)
    (st : State) :
  (0 <= layer_size layer)%Z ->
  LGrelu_init name layer kwargs st
  = (Ok (mkInstance CLGrelu name layer kwargs
           [length (shared st); S (length (shared st))] None
           (<["leak" := S (length (shared st))]>
              (<["gain" := length (shared st)]> ∅))),
     mkState
       (shared st ++
          [mkShared (layer_fmt layer "gain")
             (Vec (repeat 1 (Z.to_nat (layer_size layer))));
           mkShared (layer_fmt layer "leak")
             (Vec (repeat (1 / 10) (Z.to_nat (layer_size layer))))])
       (lambdas st) (globals st)).
Proof.
  intros Hsize. unfold LGrelu_init, ones_of_layer. simpl.
  rewrite np_ones_vec_ok by assumption. run_M.
  rewrite scale_ones, length_app, <- app_assoc. simpl.
  replace (length (shared st) + 1)%nat with (S (length (shared st))) by lia.
  reflexivity.
Qed.

Lemma LGrelu_init_neg (name : string) (layer : Layer) (kwargs : gmap string PyVal)
    (st : State) :
  (layer_size layer < 0)%Z ->
  LGrelu_init name layer kwargs st = (Raise ValueError, st).
Proof.
  intros Hsize. unfold LGrelu_init, ones_of_layer. simpl.
  rewrite np_ones_vec_neg by assumption. reflexivity.
Qed.

Lemma Maxout_init_ok (name : string) (layer : Layer) (kwargs : gmap string PyVal)
    (st : State) (p : Z) :
  kwargs !! "pieces" = Some (PInt p) ->
  (0 <= layer_size layer)%Z -> (0 <= p)%Z ->
  Maxout_init name layer kwargs st
  = (Ok (mkInstance CMaxout name layer kwargs
           [length (shared st); S (length (shared st))] (Some (PInt p))
           (<["intercept" := S (length (shared st))]>
              (<["slope" := length (shared st)]> ∅))),
     mkState
       (shared st ++
          [mkShared (layer_fmt layer "slope")
             (Mat (repeat (repeat 1 (Z.to_nat p)) (Z.to_nat (layer_size layer))));
           mkShared (layer_fmt layer "intercept")
             (Vec (repeat 1 (Z.to_nat p)))])
       (lambdas st) (globals st)).
Proof.
  intros Hkw Hsize Hp. unfold Maxout_init. rewrite Hkw. run_M.
  rewrite np_ones_mat_ok by assumption. simpl.
  rewrite np_ones_vec_ok by assumption. simpl.
  rewrite length_app, <- app_assoc. simpl.
  replace (length (shared st) + 1)%nat with (S (length (shared st))) by lia.
  reflexivity.
Qed.

Lemma Maxout_init_absent (name : string) (layer : Layer)
    (kwargs : gmap string PyVal) (st : State) :
  kwargs !! "pieces" = None ->
  Maxout_init name layer kwargs st = (Raise (KeyError "pieces"), st).
Proof. intros Hkw. unfold Maxout_init. rewrite Hkw. reflexivity. Qed.

Lemma Maxout_init_neg (name : string) (layer : Layer) (kwargs : gmap string PyVal)
    (st : State) (p : Z) :
  kwargs !! "pieces" = Some (PInt p) ->
  (layer_size layer < 0 \/ p < 0)%Z ->
  Maxout_init name layer kwargs st = (Raise ValueError, st).
Proof.
  intros Hkw Hneg. unfold Maxout_init. rewrite Hkw. run_M.
  rewrite np_ones_mat_neg by assumption. reflexivity.
Qed.

Lemma Maxout_init_not_int (name : string) (layer : Layer)
    (kwargs : gmap string PyVal) (st : State) (v : PyVal) :
  kwargs !! "pieces" = Some v ->
  (forall z, v <> PInt z) ->
  Maxout_init name layer kwargs st = (Raise TypeError, st).
Proof.
  intros Hkw Hv. unfold Maxout_init. rewrite Hkw. run_M.
  rewrite np_ones_mat_not_int by assumption. reflexivity.
Qed.

(** What a constructor does to the store: it fails without a trace, or it
    appends the shared variables that it lists in [params]. *)
Lemma new_frame (cls : Cls) (name : string) (layer : Layer)
    (kwargs : gmap string PyVal) (st : State) :
  match new cls name layer kwargs st with
  | (Ok i, st') =>
      lambdas st' = lambdas st /\ globals st' = globals st /\
      exists added, shared st' = shared st ++ added /\
                    i_params i = seq (length (shared st)) (length added)
  | (Raise _, st') => st' = st
  end.
Proof.
  destruct (Z_lt_le_dec (layer_size layer) 0) as [Hneg|Hpos]; destruct cls; simpl.
  - repeat split. exists []. rewrite app_nil_r. split; reflexivity.
  - rewrite Prelu_init_neg by assumption. reflexivity.
  - rewrite LGrelu_init_neg by assumption. reflexivity.
  - destruct (kwargs !! "pieces") as [v|] eqn:Hkw.
    + destruct v as [|p|s|l].
      * erewrite Maxout_init_not_int by (eassumption || discriminate). reflexivity.
      * erewrite Maxout_init_neg by (eassumption || lia). reflexivity.
      * erewrite Maxout_init_not_int by (eassumption || discriminate). reflexivity.
      * erewrite Maxout_init_not_int by (eassumption || discriminate). reflexivity.
    + rewrite Maxout_init_absent by assumption. reflexivity.
  - repeat split. exists []. rewrite app_nil_r. split; reflexivity.
  - rewrite Prelu_init_ok by assumption. repeat split. eexists. split; reflexivity.
  - rewrite LGrelu_init_ok by assumption. repeat split. eexists. split; reflexivity.
  - destruct (kwargs !! "pieces") as [v|] eqn:Hkw.
    + destruct v as [|p|s|l].
      * erewrite Maxout_init_not_int by (eassumption || discriminate). reflexivity.
      * destruct (Z_lt_le_dec p 0).
        -- erewrite Maxout_init_neg by (eassumption || lia). reflexivity.
        -- erewrite Maxout_init_ok by eassumption.
           repeat split. eexists. split; reflexivity.
      * erewrite Maxout_init_not_int by (eassumption || discriminate). reflexivity.
      * erewrite Maxout_init_not_int by (eassumption || discriminate). reflexivity.
    + rewrite Maxout_init_absent by assumption. reflexivity.
Qed.

(** ** Computations that only read the store *)

Lemma read_only_ret {A} (a : A) : read_only (mret a).
Proof. intros st. reflexivity. Qed.

Lemma read_only_raise {A} (e : exn) : read_only (@raise A e).
Proof. intros st. reflexivity. Qed.

Lemma read_only_lift {A} (r : result A) : read_only (lift r).
Proof. intros st. reflexivity. Qed.

Lemma read_only_bind {A B} (m : M A) (k : A -> M B) :
  read_only m -> (forall a, read_only (k a)) -> read_only (m ≫= k).
Proof.
  intros Hm Hk st. unfold mbind, M_bind.
  specialize (Hm st). destruct (m st) as [[a|e] st']; simpl in Hm; subst st'.
  - apply Hk.
  - reflexivity.
Qed.

Lemma read_only_read_vec (l : loc) : read_only (read_vec l).
Proof.
  intros st. unfold read_vec.
  destruct (sv_value <$> shared st !! l) as [[v|m]|]; reflexivity.
Qed.

Lemma read_only_read_mat (l : loc) : read_only (read_mat l).
Proof.
  intros st. unfold read_mat.
  destruct (sv_value <$> shared st !! l) as [[v|m]|]; reflexivity.
Qed.

Lemma read_only_get_tensor (self : Instance) (attr : string) :
  read_only (get_tensor self attr).
Proof.
  unfold get_tensor. destruct (i_tensors self !! attr);
    [apply read_only_ret | apply read_only_raise].
Qed.

Create HintDb read_only.
#[local] Hint Resolve read_only_ret read_only_raise read_only_lift
  read_only_read_vec read_only_read_mat read_only_get_tensor : read_only.

Ltac read_only_steps :=
  repeat (first [ apply read_only_bind; [| intros ? ] | solve [auto with read_only] ]).

Lemma read_only_Instance_call (self : Instance) (x : tensor) :
  read_only (Instance_call self x).
Proof.
  unfold Instance_call, Prelu_call, LGrelu_call, Maxout_call.
  destruct (i_cls self); read_only_steps.
Qed.

Scheme activation_mut := Induction for activation Sort Prop
  with func_mut := Induction for func Sort Prop
  with lam_mut := Induction for lam Sort Prop.

Lemma read_only_call (a : activation) : forall x, read_only (call a x).
Proof.
  induction a using activation_mut with
    (P0 := fun f => forall x, read_only (call_func f x))
    (P1 := fun b => forall x, read_only (call_lam b x));
    intros x; simpl; auto with read_only.
  - apply read_only_Instance_call.
  - apply read_only_bind; auto.
Qed.

(** ** The branches of [build] on a name without '+' *)

Lemma alter_last {A} (f : A -> A) (l : list A) (a : A) :
  alter f (length l) (l ++ [a]) = l ++ [f a].
Proof. induction l as [|b l IH]; simpl; [reflexivity | f_equal; exact IH]. Qed.

Lemma build_table_lambda (s : string) (body : lam) (layer : Layer)
    (kwargs : gmap string PyVal) (st : State) :
  contains_char plus_char s = false ->
  act_table !! s = Some (E_lambda body) ->
  build (NStr s) layer kwargs st
  = (Ok (AFunc (Lambda (length (lambdas st)) body)),
     mkState (shared st)
       (lambdas st ++ [mkAttrs (Some (PStr s)) (Some [])]) (globals st)).
Proof.
  intros Hplus Htab. unfold build. simpl build_fuel.
  rewrite build_call_simple by assumption. rewrite Htab.
  unfold mbind, M_bind, mret, M_ret, resolve_entry, new_lambda,
    set_name, set_params, update_attrs. simpl.
  rewrite !alter_last. reflexivity.
Qed.

Lemma build_table_global (s : string) (g : global) (layer : Layer)
    (kwargs : gmap string PyVal) (st : State) :
  contains_char plus_char s = false ->
  act_table !! s = Some (E_global g) ->
  exists st',
    build (NStr s) layer kwargs st = (Ok (AFunc (Global g)), st')
    /\ shared st' = shared st /\ lambdas st' = lambdas st
    /\ globals st' g = mkAttrs (Some (PStr s)) (Some [])
    /\ forall g', g' <> g -> globals st' g' = globals st g'.
Proof.
  intros Hplus Htab. unfold build. simpl build_fuel.
  rewrite build_call_simple by assumption. rewrite Htab.
  unfold mbind, M_bind, mret, M_ret, resolve_entry,
    set_name, set_params, update_attrs. simpl.
  eexists. split; [reflexivity|]. simpl. repeat split.
  - rewrite !decide_True by reflexivity. reflexivity.
  - intros g' Hne. rewrite !decide_False by assumption. reflexivity.
Qed.

Lemma build_registry (s : string) (layer : Layer) (kwargs : gmap string PyVal)
    (st : State) :
  contains_char plus_char s = false ->
  act_table !! s = None ->
  build (NStr s) layer kwargs st = Registrar_build s s layer kwargs st.
Proof.
  intros Hplus Htab. unfold build. simpl build_fuel.
  rewrite build_call_simple by assumption. rewrite Htab. reflexivity.
Qed.

Lemma build_plus (s : string) (layer : Layer) (kwargs : gmap string PyVal)
    (st : State) :
  contains_char plus_char s = true ->
  build (NStr s) layer kwargs st = (Raise TypeError, st).
Proof.
  intros Hplus. unfold build. simpl build_fuel.
  pose proof (contains_char_length _ _ Hplus) as Hlen.
  destruct (String.length s) as [|n]; [lia|].
  apply build_call_plus, Hplus.
Qed.

(** ** The frame of [build] *)

Lemma frame_refl (st : State) (r : result activation) : frame st r st.
Proof. unfold frame. repeat split; auto; intros; lia. Qed.

Lemma frame_new (cls : Cls) (name : string) (layer : Layer)
    (kwargs : gmap string PyVal) (st : State) :
  frame st
    (fst ((i ← new cls name layer kwargs; mret (AInst i)) st))
    (snd ((i ← new cls name layer kwargs; mret (AInst i)) st)).
Proof.
  pose proof (new_frame cls name layer kwargs st) as H.
  unfold mbind, M_bind, mret, M_ret.
  destruct (new cls name layer kwargs st) as [[i|e] st']; simpl.
  - destruct H as (Hlam & Hglob & added & Hsh & Hpar).
    unfold frame. rewrite Hsh, Hlam, Hglob, length_app.
    repeat split; try (intros; lia); try reflexivity.
    + intros l Hl. apply lookup_app_l, Hl.
    + intros l Hl. exists i. split; [reflexivity|].
      rewrite Hpar. apply elem_of_seq. lia.
    + intros e He. discriminate.
  - subst st'. apply frame_refl.
Qed.

Lemma frame_build (name : name_arg) (layer : Layer) (kwargs : gmap string PyVal)
    (st : State) :
  frame st (fst (build name layer kwargs st)) (snd (build name layer kwargs st)).
Proof.
  destruct name as [s|[f|i]]; try apply frame_refl.
  destruct (contains_char plus_char s) eqn:Hplus.
  { rewrite build_plus by assumption. apply frame_refl. }
  destruct (act_table !! s) as [[g|body]|] eqn:Htab.
  - destruct (build_table_global s g layer kwargs st Hplus Htab)
      as (st' & -> & Hsh & Hlam & _ & Hglob).
    simpl. unfold frame. rewrite Hsh, Hlam.
    repeat split; try (intros; lia); try reflexivity.
    + intros g' Hne. apply Hglob. congruence.
    + intros e He. discriminate.
  - rewrite (build_table_lambda s body) by assumption. simpl.
    unfold frame. simpl. rewrite length_app. simpl.
    repeat split; try (intros; lia); try reflexivity.
    + intros id Hid. apply lookup_app_l, Hid.
    + intros id Hid. exists body. repeat f_equal. lia.
    + intros e He. discriminate.
  - rewrite build_registry by assumption. unfold Registrar_build.
    destruct (registry !! s) as [cls|]; [apply frame_new | apply frame_refl].
Qed.

(** ** [build] is total *)

Lemma new_exn (cls : Cls) (name : string) (layer : Layer)
    (kwargs : gmap string PyVal) (st : State) (e : exn) (st' : State) :
  new cls name layer kwargs st = (Raise e, st') ->
  e = ValueError \/ e = TypeError \/ e = KeyError "pieces".
Proof.
  destruct (Z_lt_le_dec (layer_size layer) 0) as [Hneg|Hpos]; destruct cls; simpl;
    try discriminate.
  - rewrite Prelu_init_neg by assumption. intros [= <- _]. auto.
  - rewrite LGrelu_init_neg by assumption. intros [= <- _]. auto.
  - destruct (kwargs !! "pieces") as [v|] eqn:Hkw.
    + destruct v as [|p|s|l].
      * erewrite Maxout_init_not_int by (eassumption || discriminate).
        intros [= <- _]. auto.
      * erewrite Maxout_init_neg by (eassumption || lia). intros [= <- _]. auto.
      * erewrite Maxout_init_not_int by (eassumption || discriminate).
        intros [= <- _]. auto.
      * erewrite Maxout_init_not_int by (eassumption || discriminate).
        intros [= <- _]. auto.
    + rewrite Maxout_init_absent by assumption. intros [= <- _]. auto.
  - rewrite Prelu_init_ok by assumption. discriminate.
  - rewrite LGrelu_init_ok by assumption. discriminate.
  - destruct (kwargs !! "pieces") as [v|] eqn:Hkw.
    + destruct v as [|p|s|l].
      * erewrite Maxout_init_not_int by (eassumption || discriminate).
        intros [= <- _]. auto.
      * destruct (Z_lt_le_dec p 0).
        -- erewrite Maxout_init_neg by (eassumption || lia). intros [= <- _]. auto.
        -- erewrite Maxout_init_ok by eassumption. discriminate.
      * erewrite Maxout_init_not_int by (eassumption || discriminate).
        intros [= <- _]. auto.
      * erewrite Maxout_init_not_int by (eassumption || discriminate).
        intros [= <- _]. auto.
    + rewrite Maxout_init_absent by assumption. intros [= <- _]. auto.
Qed.

(** The fuel of [build] is never used up: the outcome is a value or a Python
    exception. *)
Lemma build_total (name : name_arg) (layer : Layer) (kwargs : gmap string PyVal)
    (st : State) :
  fst (build name layer kwargs st) <> Raise OutOfFuel.
Proof.
  destruct name as [s|[f|i]]; try discriminate.
  destruct (contains_char plus_char s) eqn:Hplus.
  { rewrite build_plus by assumption. discriminate. }
  destruct (act_table !! s) as [[g|body]|] eqn:Htab.
  - destruct (build_table_global s g layer kwargs st Hplus Htab) as (st' & -> & _).
    discriminate.
  - rewrite (build_table_lambda s body) by assumption. discriminate.
  - rewrite build_registry by assumption. unfold Registrar_build.
    destruct (registry !! s) as [cls|]; [|discriminate].
    unfold mbind, M_bind.
    destruct (new cls s layer kwargs st) as [[i|e] st'] eqn:Hnew; [discriminate|].
    apply new_exn in Hnew. simpl.
    destruct Hnew as [->|[->| ->]]; discriminate.
Qed.

(** ** A vector parameter against the last axis *)

Lemma map_as_zip_with {A} (h : R -> R) (l : list A) (r : row) :
  length r = length l -> map h r = zip_with (fun _ v => h v) l r.
Proof.
  revert r. induction l as [|a l IH]; intros [|v r] Hlen; simpl in *;
    try discriminate; try reflexivity.
  f_equal. apply IH. lia.
Qed.

Lemma map_zip_with_R {A B} (h : R -> R) (g : A -> B -> R) (l : list A) (k : list B) :
  map h (zip_with g l k) = zip_with (fun a b => h (g a b)) l k.
Proof.
  revert k. induction l as [|a l IH]; intros [|b k]; simpl; try reflexivity.
  f_equal. apply IH.
Qed.

Lemma t_vec_l_map (f : R -> R -> R) (g : R -> R) (v : row) (x : tensor) :
  last_axis (length v) x ->
  t_vec_l f v (t_map g x)
  = Ok (map (fun r => zip_with (fun c e => f c (g e)) v r) x).
Proof.
  intros Hx. unfold t_vec_l, t_map.
  induction Hx as [|r x Hr _ IH]; simpl; [reflexivity|].
  rewrite (map_as_zip_with g v r) by assumption.
  rewrite row_op_exact.
  2:{ rewrite length_zip_with. lia. }
  simpl. rewrite IH. simpl. f_equal. f_equal.
  clear. revert r. induction v as [|c v IH]; intros [|e r]; simpl; try reflexivity.
  f_equal. apply IH.
Qed.

(** an elementwise image of [x] (op) something computed per row from the
    vector and [x] *)
Lemma t_op_map_zip (f : R -> R -> R) (h : R -> R) (k : R -> R -> R)
    (v : row) (x : tensor) :
  last_axis (length v) x ->
  t_op f (t_map h x) (map (fun r => zip_with k v r) x)
  = Ok (map (fun r => zip_with (fun c e => f (h e) (k c e)) v r) x).
Proof.
  intros Hx. unfold t_op, t_map.
  apply (zip_exact_diag (row_op f) (map h) (fun r => zip_with k v r)).
  eapply Forall_impl; [exact Hx|]. intros r Hr. simpl.
  rewrite (map_as_zip_with h v r) by assumption.
  apply row_op_zip_with.
Qed.

Lemma t_op_zip_zip (f : R -> R -> R) (h k : R -> R -> R) (v : row) (x : tensor) :
  t_op f (map (fun r => zip_with h v r) x) (map (fun r => zip_with k v r) x)
  = Ok (map (fun r => zip_with (fun c e => f (h c e) (k c e)) v r) x).
Proof.
  unfold t_op.
  apply (zip_exact_diag (row_op f) (fun r => zip_with h v r) (fun r => zip_with k v r)).
  apply Forall_forall. intros r _. apply row_op_zip_with.
Qed.

Lemma t_scalar_r_zip (f : R -> R -> R) (k : R -> R -> R) (c : R) (v : row) (x : tensor) :
  t_scalar_r f (map (fun r => zip_with k v r) x) c
  = map (fun r => zip_with (fun a e => f (k a e) c) v r) x.
Proof.
  unfold t_scalar_r, t_map. rewrite map_map. apply map_ext. intros r.
  apply map_zip_with_R.
Qed.

(** ** The leaky rectifiers *)

Lemma prelu_elem_cases (leak v : R) :
  (0 <= v -> prelu_elem leak v = v) /\ (v < 0 -> prelu_elem leak v = leak * v).
Proof.
  unfold prelu_elem, Rabs. destruct (Rcase_abs v); split; intros; lra.
Qed.

Lemma get_tensor_read_vec (self : Instance) (attr : string) (l : loc) (v : row)
    (st : State) :
  i_tensors self !! attr = Some l ->
  sv_value <$> shared st !! l = Some (Vec v) ->
  (get_tensor self attr ≫= read_vec) st = (Ok v, st).
Proof.
  intros Hattr Hval. unfold get_tensor. rewrite Hattr.
  unfold mbind, M_bind, mret, M_ret, read_vec. rewrite Hval. reflexivity.
Qed.

Lemma get_tensor_read_mat (self : Instance) (attr : string) (l : loc)
    (m : list row) (st : State) :
  i_tensors self !! attr = Some l ->
  sv_value <$> shared st !! l = Some (Mat m) ->
  (get_tensor self attr ≫= read_mat) st = (Ok m, st).
Proof.
  intros Hattr Hval. unfold get_tensor. rewrite Hattr.
  unfold mbind, M_bind, mret, M_ret, read_mat. rewrite Hval. reflexivity.
Qed.

Lemma M_bind_ok {A B} (m : M A) (k : A -> M B) (a : A) (st st' : State) :
  m st = (Ok a, st') -> (m ≫= k) st = k a st'.
Proof. intros H. unfold mbind, M_bind. rewrite H. reflexivity. Qed.

Lemma M_bind_lift {A B} (r : result A) (k : A -> M B) (a : A) (st : State) :
  r = Ok a -> (lift r ≫= k) st = k a st.
Proof. intros ->. reflexivity. Qed.

Lemma Prelu_call_elementwise (self : Instance) (l : loc) (leak : row)
    (x : tensor) (st : State) :
  i_tensors self !! "leak" = Some l ->
  sv_value <$> shared st !! l = Some (Vec leak) ->
  last_axis (length leak) x ->
  Prelu_call self x st
  = (Ok (map (fun r => zip_with prelu_elem leak r) x), st).
Proof.
  intros Hattr Hval Hx. unfold Prelu_call, t_abs.
  erewrite M_bind_lift by apply t_op_self_l.
  erewrite M_bind_ok by (eapply get_tensor_read_vec; eassumption).
  erewrite M_bind_lift by apply t_op_self_l.
  erewrite M_bind_lift by (apply t_vec_l_map; assumption).
  rewrite t_scalar_r_zip. unfold t_scalar_r. rewrite t_map_map.
  unfold lift. rewrite t_op_map_zip by assumption. reflexivity.
Qed.

(** ** Maxout *)

Lemma fold_left_Rmax_spec (vs : row) (v : R) :
  (fold_left Rmax vs v = v \/ In (fold_left Rmax vs v) vs)
  /\ v <= fold_left Rmax vs v
  /\ (forall e, In e vs -> e <= fold_left Rmax vs v).
Proof.
  revert v. induction vs as [|e vs IH]; intros v; simpl.
  - split; [left; reflexivity|]. split; [lra | intros e []].
  - destruct (IH (Rmax v e)) as (Hin & Hle & Hall).
    pose proof (Rmax_l v e). pose proof (Rmax_r v e).
    split; [|split].
    + destruct Hin as [Heq|Hin]; [|right; right; exact Hin].
      rewrite Heq. unfold Rmax. destruct (Rle_dec v e); [right; left|left]; reflexivity.
    + lra.
    + intros e' [<-|He']; [lra | apply Hall, He'].
Qed.

Lemma max_or_zero_spec (c : row) :
  c <> [] -> In (max_or_zero c) c /\ (forall e, In e c -> e <= max_or_zero c).
Proof.
  destruct c as [|v vs]; [congruence|]. intros _. simpl.
  destruct (fold_left_Rmax_spec vs v) as (Hin & Hle & Hall).
  split.
  - destruct Hin as [->|Hin]; [left; reflexivity | right; exact Hin].
  - intros e [<-|He]; [exact Hle | apply Hall, He].
Qed.

Lemma row_max_ok (c : row) : c <> [] -> row_max c = Ok (max_or_zero c).
Proof. destruct c; [congruence | reflexivity]. Qed.

Lemma traverse_map_pointwise {A B C} (f : B -> result C) (g : A -> B)
    (k : A -> C) (l : list A) :
  Forall (fun a => f (g a) = Ok (k a)) l -> traverse f (map g l) = Ok (map k l).
Proof.
  induction 1 as [|a l Ha _ IH]; simpl; [reflexivity|].
  rewrite Ha. simpl. rewrite IH. reflexivity.
Qed.

Lemma traverse_zip_with {A B C D} (f : C -> result D) (h : A -> B -> C)
    (k : A -> B -> D) (l : list A) (m : list B) :
  Forall (fun b => forall a, f (h a b) = Ok (k a b)) m ->
  traverse f (zip_with h l m) = Ok (zip_with k l m).
Proof.
  intros Hm. revert l. induction Hm as [|b m Hb _ IH]; intros [|a l]; simpl;
    try reflexivity.
  rewrite Hb. simpl. rewrite IH. reflexivity.
Qed.

Lemma bc_rows_exact (f : R -> R -> R) (r : row) (m : list row) :
  length r = length m ->
  zip_exact (bc_row f) (map (fun v => [v]) r) m
  = Ok (zip_with (fun v mr => map (f v) mr) r m).
Proof.
  revert m. induction r as [|v r IH]; intros [|mr m] Hlen; simpl in *;
    try discriminate; try reflexivity.
  rewrite IH by lia. reflexivity.
Qed.

Lemma length_maxout_pieces (intercept : row) (v : R) (slope_i : row) :
  length slope_i = length intercept ->
  length (maxout_pieces intercept v slope_i) = length intercept.
Proof.
  intros H. unfold maxout_pieces. rewrite length_zip_with, length_map. lia.
Qed.

(** The transform of a Maxout activation whose [slope] holds an n x p
    matrix and whose [intercept] holds a vector of length p > 0, on a
    tensor of shape (..., n). *)
Lemma Maxout_call_elementwise (self : Instance) (ls li : loc)
    (slope : list row) (intercept : row) (x : tensor) (st : State) :
  i_tensors self !! "slope" = Some ls ->
  i_tensors self !! "intercept" = Some li ->
  sv_value <$> shared st !! ls = Some (Mat slope) ->
  sv_value <$> shared st !! li = Some (Vec intercept) ->
  Forall (fun mr => length mr = length intercept) slope ->
  intercept <> [] ->
  last_axis (length slope) x ->
  Maxout_call self x st
  = (Ok (map (fun r => zip_with (maxout_unit intercept) r slope) x), st).
Proof.
  intros Hs Hi Hsv Hiv Hshape Hne Hx. unfold Maxout_call.
  erewrite M_bind_ok by (eapply get_tensor_read_mat; eassumption).
  erewrite M_bind_lift.
  2:{ unfold t3_mat_op, t_expand_last.
      apply (traverse_map_pointwise _ _
               (fun r => zip_with (fun v mr => map (Rmult v) mr) r slope)).
      eapply Forall_impl; [exact Hx|]. intros r Hr. simpl.
      apply bc_rows_exact, Hr. }
  erewrite M_bind_ok by (eapply get_tensor_read_vec; eassumption).
  erewrite M_bind_lift.
  2:{ unfold t3_vec_r.
      apply (traverse_map_pointwise _ _
               (fun r => zip_with (maxout_pieces intercept) r slope)).
      apply Forall_forall. intros r _.
      apply traverse_zip_with.
      eapply Forall_impl; [exact Hshape|]. intros mr Hmr v. simpl.
      apply row_op_exact. rewrite length_map. exact Hmr. }
  unfold lift, t3_max_last. f_equal.
  apply (traverse_map_pointwise _ _
           (fun r => zip_with (maxout_unit intercept) r slope)).
  apply Forall_forall. intros r _.
  apply traverse_zip_with.
  eapply Forall_impl; [exact Hshape|]. intros mr Hmr v. simpl.
  apply row_max_ok. intros Hnil.
  apply (f_equal (@length R)) in Hnil.
  rewrite length_maxout_pieces in Hnil by assumption.
  destruct intercept; [congruence | discriminate].
Qed.

(** [max_k] spelled out: the value of a unit is one of its pieces and
    bounds all of them. *)
Lemma maxout_unit_is_max (intercept : row) (v : R) (slope_i : row) :
  length slope_i = length intercept -> intercept <> [] ->
  (exists k m b, slope_i !! k = Some m /\ intercept !! k = Some b
                 /\ maxout_unit intercept v slope_i = v * m + b)
  /\ (forall k m b, slope_i !! k = Some m -> intercept !! k = Some b ->
        v * m + b <= maxout_unit intercept v slope_i).
Proof.
  intros Hlen Hne.
  assert (Hpieces : maxout_pieces intercept v slope_i <> []).
  { intros Hnil. apply (f_equal (@length R)) in Hnil.
    rewrite length_maxout_pieces in Hnil by assumption.
    destruct intercept; [congruence | discriminate]. }
  destruct (max_or_zero_spec _ Hpieces) as [Hin Hub].
  fold (maxout_unit intercept v slope_i) in Hin, Hub.
  assert (Hlook : forall k e, maxout_pieces intercept v slope_i !! k = Some e <->
            exists m b, slope_i !! k = Some m /\ intercept !! k = Some b
                        /\ e = v * m + b).
  { intros k e. unfold maxout_pieces. rewrite lookup_zip_with, list_lookup_fmap.
    destruct (slope_i !! k) as [m|], (intercept !! k) as [b|]; simpl; split.
    - intros [= <-]. eauto.
    - intros (m' & b' & [= <-] & [= <-] & ->). reflexivity.
    - discriminate.
    - intros (m' & b' & _ & [=] & _).
    - discriminate.
    - intros (m' & b' & [=] & _).
    - discriminate.
    - intros (m' & b' & [=] & _). }
  split.
  - apply list_elem_of_In, list_elem_of_lookup in Hin. destruct Hin as [k Hk].
    apply Hlook in Hk. destruct Hk as (m & b & Hm & Hb & Heq). eauto 6.
  - intros k m b Hm Hb. apply Hub.
    apply list_elem_of_In, list_elem_of_lookup. exists k.
    apply Hlook. eauto.
Qed.

(** Two pieces with slopes 0 and 1 and intercepts 0 make the plain rectifier. *)
Lemma maxout_unit_relu (v : R) : maxout_unit [0; 0] v [0; 1] = Rmax 0 v.
Proof.
  unfold maxout_unit, maxout_pieces. simpl.
  f_equal; lra.
Qed.

(** ** [compose] *)

Lemma get_name_after_alloc (d : activation) (st : State) (v : PyVal) :
  let st1 := mkState (shared st) (lambdas st ++ [no_attrs]) (globals st) in
  get_name d st1 = (Ok v, st1) -> get_name d st = (Ok v, st).
Proof.
  destruct d as [[g|id body]|i]; simpl; unfold get_name; simpl.
  - destruct (a_name (globals st g)); intros [= <-]; reflexivity.
  - destruct (decide (id < length (lambdas st))%nat) as [Hlt|Hge].
    + rewrite lookup_app_l by assumption.
      destruct (lambdas st !! id ≫= a_name); intros [= <-]; reflexivity.
    + destruct (decide (id = length (lambdas st))) as [->|Hne].
      * rewrite list_lookup_middle by reflexivity. simpl. discriminate.
      * rewrite lookup_ge_None_2; [simpl; discriminate|].
        rewrite length_app. simpl. lia.
  - intros [= <-]. reflexivity.
Qed.

Lemma compose_ok (a b : activation) (st : State) (c : activation) (st' : State) :
  compose a b st = (Ok c, st') ->
  exists bn an,
    get_name b st = (Ok bn, st) /\ get_name a st = (Ok an, st)
    /\ c = AFunc (Lambda (length (lambdas st)) (L_compose a b))
    /\ st' = mkState (shared st)
               (lambdas st ++ [mkAttrs (Some (PList [PStr (format_call bn an)])) None])
               (globals st).
Proof.
  unfold compose, mbind, M_bind, new_lambda. simpl.
  pose proof (fun d v => get_name_after_alloc d st v) as Hback. simpl in Hback.
  set (st1 := mkState (shared st) (lambdas st ++ [no_attrs]) (globals st)) in *.
  assert (Hname : forall d, get_name d st1 = (Raise (AttributeError "name"), st1)
                            \/ exists v, get_name d st1 = (Ok v, st1)).
  { intros [f|i]; unfold get_name; [|eauto].
    destruct (func_attrs st1 f ≫= a_name); eauto. }
  destruct (Hname b) as [Hb|[bn Hb]]; rewrite Hb; [discriminate|].
  destruct (Hname a) as [Ha|[an Ha]]; rewrite Ha; [discriminate|].
  unfold set_name, update_attrs, mret, M_ret. simpl.
  rewrite alter_last. simpl. intros [= <- <-].
  exists bn, an. auto.
Qed.

Lemma compose_attrs (a b : activation) (st : State) (c : activation) (st' : State) :
  compose a b st = (Ok c, st') ->
  exists f s, c = AFunc f
              /\ func_attrs st' f = Some (mkAttrs (Some (PList [PStr s])) None).
Proof.
  intros H. apply compose_ok in H. destruct H as (bn & an & _ & _ & -> & ->).
  eexists _, _. split; [reflexivity|]. simpl.
  apply list_lookup_middle. reflexivity.
Qed.

(** The closure made by [compose] applies [a] and then [b]. *)
Lemma compose_call (a b : activation) (st : State) (c : activation) (st' : State)
    (x : list (list R)) (st2 : State) :
  compose a b st = (Ok c, st') ->
  call c x st2 = (y ← call a x; call b y) st2.
Proof.
  intros H. apply compose_ok in H. destruct H as (bn & an & _ & _ & -> & _).
  reflexivity.
Qed.

(** Composed by hand from the two activations that [build] returns for
    "tanh" and "relu", the closure computes [relu(tanh(x))] entry by entry:
    the chaining in [compose] is as intended. *)
Lemma compose_tanh_relu_by_hand (x : list (list R)) :
  exists a b st c st',
    (a ← build (NStr "tanh") layer3 ∅;
     b ← build (NStr "relu") layer3 ∅; mret (a, b)) st0 = (Ok (a, b), st)
    /\ compose a b st = (Ok c, st')
    /\ call c x st' = (Ok (t_map (fun v => relu_elem (tanh v)) x), st').
Proof.
  eexists _, _, _, _, _. split; [reflexivity|]. split; [reflexivity|].
  simpl. unfold mbind, M_bind, lift. simpl.
  rewrite relu_elementwise, t_map_map. reflexivity.
Qed.

(** Composing a composition by hand: the list that [compose] stored as the
    name of the inner composition is formatted with [%s], brackets and
    quotes included. *)
Lemma compose_nested_name_by_hand :
  exists c st,
    (a ← build (NStr "tanh") layer3 ∅;
     b ← build (NStr "relu") layer3 ∅;
     ab ← compose a b;
     l ← build (NStr "linear") layer3 ∅;
     compose ab l) st0 = (Ok c, st)
    /\ get_name c st = (Ok (PList [PStr "linear(['relu(tanh)'])"]), st).
Proof. eexists _, _. split; reflexivity. Qed.

Lemma contains_char_joined (s1 s2 : string) :
  contains_char plus_char (s1 +:+ "+" +:+ s2) = true.
Proof.
  induction s1 as [|a s1 IH]; simpl.
  - reflexivity.
  - destruct (decide (a = plus_char)); [reflexivity | exact IH].
Qed.

(** * The claims *)

(** C1 (the code departs from it): [build("tanh+relu", layer)] should return
    the activation [x -> relu(tanh(x))].  As written, the generator calls
    [build(n)] with the name alone, argument binding fails for want of
    [layer], and [build] raises [TypeError] for this name, whatever the layer,
    the keyword arguments and the store, which it leaves as it was. *)
Theorem build_tanh_plus_relu_raises (layer : Layer) (kwargs : gmap string PyVal)
    (st : State) :
  build (NStr "tanh+relu") layer kwargs st = (Raise TypeError, st).
Proof. apply build_plus. reflexivity. Qed.

(** C2 (the code departs from it): composing a leaky-slope-with-gain
    rectifier with a leaky-slope rectifier should give an activation that
    lists the three parameters [gain, leak, leak2].  [build] returns no
    activation for this composition, under the class names or under the
    alias keys: the first sub-build is called without [layer], [build]
    raises [TypeError], and the store is left as it was, so that no
    parameter is allocated or listed. *)
Theorem build_lgrelu_plus_prelu_raises (layer : Layer)
    (kwargs : gmap string PyVal) (st : State) :
  build (NStr "lgrelu+prelu") layer kwargs st = (Raise TypeError, st)
  /\ build (NStr "leaky-gain-relu+leaky-relu") layer kwargs st
     = (Raise TypeError, st).
Proof. split; apply build_plus; reflexivity. Qed.

(** C3 (the code departs from it): joining the names of [a] and [b] by '+'
    should give an activation named ["<b.name>(<a.name>)"].  Whatever the
    two names are, [build] returns no activation for the joined name, and so
    nothing that carries such a name: it raises [TypeError] and leaves the
    store as it was. *)
Theorem build_joined_names_raise (a_name b_name : string) (layer : Layer)
    (kwargs : gmap string PyVal) (st : State) :
  build (NStr (a_name +:+ "+" +:+ b_name)) layer kwargs st = (Raise TypeError, st).
Proof. apply build_plus, contains_char_joined. Qed.

(** A second defect, which no run of [build] reaches: [compose] never sets
    [params] on the function it returns, so reading [c.params] would raise
    [AttributeError] for every composition [c]. *)
Lemma compose_has_no_params (a b : activation) (st : State) (c : activation)
    (st' : State) :
  compose a b st = (Ok c, st') ->
  get_params c st' = (Raise (AttributeError "params"), st').
Proof.
  intros H. apply compose_attrs in H. destruct H as (f & s & -> & Hattrs).
  unfold get_params. rewrite Hattrs. reflexivity.
Qed.

(** A third defect, which no run of [build] reaches: [compose] stores a
    one-element list holding the string ["<b.name>(<a.name>)"], so the name
    of a composition would be a list and never a string. *)
Lemma compose_name_is_a_list (a b : activation) (st : State) (c : activation)
    (st' : State) :
  compose a b st = (Ok c, st') ->
  (exists bn an,
     get_name b st = (Ok bn, st) /\ get_name a st = (Ok an, st)
     /\ get_name c st'
        = (Ok (PList [PStr (py_str bn +:+ "(" +:+ py_str an +:+ ")")]), st'))
  /\ forall s, get_name c st' <> (Ok (PStr s), st').
Proof.
  intros H. pose proof (compose_ok _ _ _ _ _ H) as (bn & an & Hb & Ha & -> & ->).
  assert (Hn : get_name (AFunc (Lambda (length (lambdas st)) (L_compose a b)))
                 (mkState (shared st)
                    (lambdas st ++
                       [mkAttrs (Some (PList [PStr (format_call bn an)])) None])
                    (globals st))
               = (Ok (PList [PStr (format_call bn an)]),
                  mkState (shared st)
                    (lambdas st ++
                       [mkAttrs (Some (PList [PStr (format_call bn an)])) None])
                    (globals st))).
  { unfold get_name. simpl. rewrite list_lookup_middle by reflexivity. reflexivity. }
  split.
  - exists bn, an. repeat split; assumption.
  - intros s Hs. rewrite Hn in Hs. discriminate.
Qed.

Lemma compose_has_no_params_witness :
  exists a b st c st',
    lgrelu_and_prelu st0 = (Ok (a, b), st)
    /\ get_params a st = (Ok [0; 1]%nat, st)
    /\ get_params b st = (Ok [2]%nat, st)
    /\ compose a b st = (Ok c, st')
    /\ get_params c st' = (Raise (AttributeError "params"), st').
Proof.
  eexists _, _, _, _, _. split.
  { unfold lgrelu_and_prelu.
    erewrite M_bind_ok by (apply LGrelu_init_ok; simpl; lia).
    erewrite M_bind_ok by (apply Prelu_init_ok; simpl; lia).
    reflexivity. }
  split; [reflexivity|]. split; [reflexivity|].
  lazymatch goal with
  | |- compose ?a ?b ?st = _ /\ _ =>
      pose proof (compose_has_no_params a b st) as W
  end.
  split; [reflexivity|]. apply W. reflexivity.
Defined.

Lemma compose_name_is_a_list_witness :
  exists a b st c st',
    (a ← build (NStr "tanh") layer3 ∅;
     b ← build (NStr "relu") layer3 ∅; mret (a, b)) st0 = (Ok (a, b), st)
    /\ compose a b st = (Ok c, st')
    /\ get_name c st' = (Ok (PList [PStr "relu(tanh)"]), st')
    /\ forall s, get_name c st' <> (Ok (PStr s), st').
Proof.
  eexists _, _, _, _, _. split; [reflexivity|].
  lazymatch goal with
  | |- compose ?a ?b ?st = (Ok ?c, ?st') /\ _ =>
      pose proof (compose_name_is_a_list a b st) as W
  end.
  split; [reflexivity|].
  edestruct W as [(bn & an & Hb & Ha & Hn) Hnot]; [reflexivity|].
  split; [|exact Hnot].
  injection Hb as <-. injection Ha as <-. exact Hn.
Defined.

(** C4: building an activation and applying its transform have no effect
    outside the activation.  A call of [build] leaves every shared variable
    and every function object that existed before as it was, the global
    function object it returns apart ([build] sets [name] and [params] on
    it); whatever it allocates is the returned lambda or a learnable tensor
    listed in [params] of the returned instance; a failing [build] leaves the
    store as it was.  Applying a transform leaves the whole store, and so the
    values of the learnable tensors, as it was. *)
Theorem build_and_call_frame (name : name_arg) (layer : Layer)
    (kwargs : gmap string PyVal) (st : State) :
  frame st (fst (build name layer kwargs st)) (snd (build name layer kwargs st))
  /\ forall (a : activation) (x : list (list R)) (st1 : State),
       snd (call a x st1) = st1.
Proof.
  split; [apply frame_build|].
  intros a x st1. apply read_only_call.
Qed.

(** C5, counterexample: a piece count of zero is non-positive, and the
    constructor accepts it: on a layer of three units it returns an
    instance (with a 3 x 0 slope and an empty intercept). *)
Lemma Maxout_accepts_zero_pieces :
  ~ (forall name layer kwargs st,
       pieces_invalid kwargs ->
       is_ok (fst (new CMaxout name layer kwargs st)) = false).
Proof.
  intros H.
  specialize (H "maxout" layer3 {["pieces" := PInt 0]} st0).
  simpl in H.
  rewrite (Maxout_init_ok _ _ _ _ 0) in H;
    [| apply lookup_singleton_eq | simpl; lia | lia].
  assert (Hinv : pieces_invalid {["pieces" := PInt 0]}).
  { unfold pieces_invalid. rewrite lookup_singleton_eq. lia. }
  specialize (H Hinv). discriminate.
Qed.

(** C5, amended: constructing a Maxout activation fails, at construction
    time and without touching the store, when [pieces] is absent
    ([KeyError]), when it is a negative integer ([ValueError] from the array
    allocation) and when it is not an integer ([TypeError]); a piece count
    of zero on a layer of non-negative size is accepted. *)
Theorem Maxout_configuration_errors (name : string) (layer : Layer)
    (kwargs : gmap string PyVal) (st : State) :
  (pieces_rejected kwargs ->
   new CMaxout name layer kwargs st = (Raise (pieces_error kwargs), st))
  /\ (kwargs !! "pieces" = Some (PInt 0) -> (0 <= layer_size layer)%Z ->
      is_ok (fst (new CMaxout name layer kwargs st)) = true).
Proof.
  split.
  - unfold pieces_rejected, pieces_error. simpl.
    destruct (kwargs !! "pieces") as [v|] eqn:Hkw.
    + destruct v as [|p|s|l]; intros Hrej.
      * eapply Maxout_init_not_int; [eassumption | discriminate].
      * eapply Maxout_init_neg; [eassumption | lia].
      * eapply Maxout_init_not_int; [eassumption | discriminate].
      * eapply Maxout_init_not_int; [eassumption | discriminate].
    + intros _. apply Maxout_init_absent, Hkw.
  - intros Hkw Hsize. simpl.
    rewrite (Maxout_init_ok _ _ _ _ 0) by (assumption || lia). reflexivity.
Qed.

Lemma Maxout_configuration_errors_witness :
  new CMaxout "maxout" layer3 ∅ st0 = (Raise (KeyError "pieces"), st0)
  /\ new CMaxout "maxout" layer3 {["pieces" := PInt (-1)]} st0
     = (Raise ValueError, st0)
  /\ new CMaxout "maxout" layer3 {["pieces" := PStr "2"]} st0
     = (Raise TypeError, st0)
  /\ is_ok (fst (new CMaxout "maxout" layer3 {["pieces" := PInt 0]} st0)) = true.
Proof.
  split; [|split; [|split]].
  - pose proof (proj1 (Maxout_configuration_errors "maxout" layer3 ∅ st0)) as W.
    unfold pieces_rejected, pieces_error in W. rewrite lookup_empty in W.
    exact (W I).
  - pose proof (proj1 (Maxout_configuration_errors "maxout" layer3
                         {["pieces" := PInt (-1)]} st0)) as W.
    unfold pieces_rejected, pieces_error in W. rewrite lookup_singleton_eq in W.
    apply W. lia.
  - pose proof (proj1 (Maxout_configuration_errors "maxout" layer3
                         {["pieces" := PStr "2"]} st0)) as W.
    unfold pieces_rejected, pieces_error in W. rewrite lookup_singleton_eq in W.
    exact (W I).
  - apply (proj2 (Maxout_configuration_errors "maxout" layer3
                    {["pieces" := PInt 0]} st0)).
    + apply lookup_singleton_eq.
    + simpl. lia.
Defined.

(** C6, with the registry modelled from the spec: for every key string (a
    single name, without the separator '+' of a composition) that matches
    neither the function table nor the registry, [build] fails with an
    unknown-activation error carrying that key, and the store is as it was:
    nothing was allocated, no attribute was set. *)
Theorem build_unknown_key (key : string) (layer : Layer)
    (kwargs : gmap string PyVal) (st : State) :
  contains_char plus_char key = false ->
  act_table !! key = None ->
  registry !! key = None ->
  build (NStr key) layer kwargs st = (Raise (UnknownActivation key), st).
Proof.
  intros Hplus Htab Hreg.
  rewrite build_registry by assumption.
  unfold Registrar_build. rewrite Hreg. reflexivity.
Qed.

Lemma build_unknown_key_witness :
  build (NStr "bogus") layer3 ∅ st0 = (Raise (UnknownActivation "bogus"), st0).
Proof.
  apply build_unknown_key; reflexivity.
Defined.

(** A Maxout constructor that returns was given an integer [pieces] that is
    not negative, on a layer whose size is not negative. *)
Lemma Maxout_init_inv (name : string) (layer : Layer) (kwargs : gmap string PyVal)
    (st : State) (self : Instance) (st' : State) :
  Maxout_init name layer kwargs st = (Ok self, st') ->
  exists p, kwargs !! "pieces" = Some (PInt p)
            /\ (0 <= layer_size layer)%Z /\ (0 <= p)%Z.
Proof.
  intros H.
  destruct (kwargs !! "pieces") as [v|] eqn:Hkw.
  - destruct v as [|p|s|l];
      try (erewrite Maxout_init_not_int in H by (eassumption || discriminate);
           discriminate).
    destruct (Z_lt_le_dec (layer_size layer) 0);
      [erewrite Maxout_init_neg in H by (eassumption || lia); discriminate|].
    destruct (Z_lt_le_dec p 0);
      [erewrite Maxout_init_neg in H by (eassumption || lia); discriminate|].
    eauto.
  - rewrite Maxout_init_absent in H by assumption. discriminate.
Qed.

Lemma last_axis_1_relu (x : list (list R)) :
  last_axis 1 x ->
  map (fun r => zip_with (maxout_unit [0; 0]) r [[0; 1]]) x = t_map (Rmax 0) x.
Proof.
  intros Hx. unfold t_map.
  induction Hx as [|r x Hr _ IH]; simpl; [reflexivity|].
  rewrite IH. f_equal.
  destruct r as [|v [|w r]]; try discriminate.
  simpl. rewrite maxout_unit_relu. reflexivity.
Qed.

(** C7: a Maxout activation built with a positive piece count [p] on a
    layer of [n] units allocates [slope], an n x p matrix of ones, and
    [intercept], a vector of p ones, and lists the two in [params], which
    makes them learnable.  With any values of these shapes in the
    store, its transform maps the entry [x_i] of a row to
    [max_k (x_i * slope[i,k] + intercept[k])]: the row [slope[i]] belongs to
    unit [i], the vector [intercept] is the same for every unit, and the
    value is one of the pieces and bounds them all.  With two pieces,
    [slope = [[0, 1]]] and [intercept = [0, 0]] on a single unit, the
    transform is [max(0, x)]. *)
Theorem Maxout_tensors_and_transform (name : string) (layer : Layer)
    (kwargs : gmap string PyVal) (st : State) (p : Z) :
  kwargs !! "pieces" = Some (PInt p) ->
  (0 <= layer_size layer)%Z ->
  (0 < p)%Z ->
  exists self,
    new CMaxout name layer kwargs st
    = (Ok self,
       mkState
         (shared st ++
            [mkShared (layer_fmt layer "slope")
               (Mat (repeat (repeat 1 (Z.to_nat p)) (Z.to_nat (layer_size layer))));
             mkShared (layer_fmt layer "intercept")
               (Vec (repeat 1 (Z.to_nat p)))])
         (lambdas st) (globals st))
    /\ i_params self = [length (shared st); S (length (shared st))]
    /\ i_tensors self !! "slope" = Some (length (shared st))
    /\ i_tensors self !! "intercept" = Some (S (length (shared st)))
    /\ (forall (slope : list (list R)) (intercept : list R) (x : list (list R))
               (st' : State),
          sv_value <$> shared st' !! length (shared st) = Some (Mat slope) ->
          sv_value <$> shared st' !! S (length (shared st)) = Some (Vec intercept) ->
          length slope = Z.to_nat (layer_size layer) ->
          Forall (fun mr => length mr = Z.to_nat p) slope ->
          length intercept = Z.to_nat p ->
          last_axis (Z.to_nat (layer_size layer)) x ->
          call (AInst self) x st'
          = (Ok (map (fun r => zip_with (maxout_unit intercept) r slope) x), st')
          /\ forall (v : R) (slope_i : list R), In slope_i slope ->
               (exists k m b, slope_i !! k = Some m /\ intercept !! k = Some b
                              /\ maxout_unit intercept v slope_i = v * m + b)
               /\ (forall k m b, slope_i !! k = Some m -> intercept !! k = Some b ->
                     v * m + b <= maxout_unit intercept v slope_i))
    /\ (forall (x : list (list R)) (st' : State),
          p = 2%Z -> layer_size layer = 1%Z ->
          sv_value <$> shared st' !! length (shared st) = Some (Mat [[0; 1]]) ->
          sv_value <$> shared st' !! S (length (shared st)) = Some (Vec [0; 0]) ->
          last_axis 1 x ->
          call (AInst self) x st' = (Ok (t_map (Rmax 0) x), st')).
Proof.
  intros Hkw Hsize Hp. eexists. split.
  { simpl. apply Maxout_init_ok; (eassumption || lia). }
  split; [reflexivity|]. split; [reflexivity|]. split; [reflexivity|]. split.
  - intros slope intercept x st' Hs Hi Hn Hrows Hlen Hx.
    assert (Hne : intercept <> []).
    { intros ->. simpl in Hlen. lia. }
    split.
    + simpl. unfold Instance_call. simpl.
      eapply Maxout_call_elementwise; try eassumption; try reflexivity.
      * rewrite Hlen. exact Hrows.
      * rewrite Hn. exact Hx.
    + intros v slope_i Hin. apply maxout_unit_is_max; [|exact Hne].
      rewrite Hlen. rewrite Forall_forall in Hrows. apply Hrows.
      apply list_elem_of_In, Hin.
  - intros x st' _ _ Hs Hi Hx.
    simpl. unfold Instance_call. simpl.
    erewrite Maxout_call_elementwise; try eassumption; try reflexivity.
    + rewrite last_axis_1_relu by assumption. reflexivity.
    + repeat constructor.
    + discriminate.
Qed.

Lemma Maxout_tensors_and_transform_witness :
  exists self,
    new CMaxout "maxout" layer1 {["pieces" := PInt 2]} st0
    = (Ok self,
       mkState [mkShared "out.slope" (Mat [[1; 1]]);
                mkShared "out.intercept" (Vec [1; 1])] [] (fun _ => no_attrs))
    /\ i_params self = [0; 1]%nat
    /\ forall v : R,
         call (AInst self) [[v]]
           (mkState [mkShared "out.slope" (Mat [[0; 1]]);
                     mkShared "out.intercept" (Vec [0; 0])] [] (fun _ => no_attrs))
         = (Ok [[Rmax 0 v]],
            mkState [mkShared "out.slope" (Mat [[0; 1]]);
                     mkShared "out.intercept" (Vec [0; 0])] [] (fun _ => no_attrs)).
Proof.
  destruct (Maxout_tensors_and_transform "maxout" layer1
              {["pieces" := PInt 2]} st0 2)
    as (self & Hnew & Hparams & _ & _ & _ & Hrelu).
  - apply lookup_singleton_eq.
  - simpl. lia.
  - lia.
  - exists self. split; [exact Hnew|]. split; [exact Hparams|].
    intros v. apply (Hrelu [[v]]); try reflexivity.
    repeat constructor.
Defined.

(** C8: on a layer of [n > 0] units, a leaky-slope rectifier has exactly one
    learnable tensor, [leak], a vector of [n] entries that are all 0.1 at
    first.  Its transform maps the entry [x_i] of a row to
    [(x_i + |x_i|)/2 + leak_i * (x_i - |x_i|)/2], which is [x_i] when
    [x_i] is not negative and [leak_i * x_i] when it is. *)
Theorem Prelu_leak_and_transform (name : string) (layer : Layer)
    (kwargs : gmap string PyVal) (st : State) :
  (0 < layer_size layer)%Z ->
  exists self,
    new CPrelu name layer kwargs st
    = (Ok self,
       mkState
         (shared st ++
            [mkShared (layer_fmt layer "leak")
               (Vec (repeat (1 / 10) (Z.to_nat (layer_size layer))))])
         (lambdas st) (globals st))
    /\ i_params self = [length (shared st)]
    /\ i_tensors self !! "leak" = Some (length (shared st))
    /\ (forall (leak : list R) (x : list (list R)) (st' : State),
          sv_value <$> shared st' !! length (shared st) = Some (Vec leak) ->
          length leak = Z.to_nat (layer_size layer) ->
          last_axis (Z.to_nat (layer_size layer)) x ->
          call (AInst self) x st'
          = (Ok (map (fun r => zip_with prelu_elem leak r) x), st'))
    /\ forall leak_i x_i : R,
         prelu_elem leak_i x_i = (x_i + Rabs x_i) / 2 + leak_i * (x_i - Rabs x_i) / 2
         /\ (0 <= x_i -> prelu_elem leak_i x_i = x_i)
         /\ (x_i < 0 -> prelu_elem leak_i x_i = leak_i * x_i).
Proof.
  intros Hsize. eexists. split.
  { simpl. apply Prelu_init_ok. lia. }
  split; [reflexivity|]. split; [reflexivity|]. split.
  - intros leak x st' Hval Hlen Hx.
    simpl. unfold Instance_call. simpl.
    eapply Prelu_call_elementwise; try eassumption; try reflexivity.
    rewrite Hlen. exact Hx.
  - intros leak_i x_i. split; [reflexivity|]. apply prelu_elem_cases.
Qed.

Lemma Prelu_leak_and_transform_witness :
  exists self,
    new CPrelu "prelu" layer3 ∅ st0
    = (Ok self,
       mkState [mkShared "hid1.leak" (Vec [1 / 10; 1 / 10; 1 / 10])] []
         (fun _ => no_attrs))
    /\ i_params self = [0%nat].
Proof.
  destruct (Prelu_leak_and_transform "prelu" layer3 ∅ st0)
    as (self & Hnew & Hparams & _).
  - simpl. lia.
  - exists self. split; [exact Hnew | exact Hparams].
Defined.

(** C9: the transform that [build] returns for ["rect:max"] maps every
    entry [x] to [(1 + x - |x - 1|)/2], which is [x] when [x <= 1] and [1]
    when [x > 1]; the one for ["rect:minmax"] maps it to
    [(1 + |x| - |x - 1|)/2], which is [0] when [x < 0], [x] when
    [0 <= x <= 1] and [1] when [x > 1]. *)
Theorem rect_max_and_minmax_clip (layer : Layer) (kwargs : gmap string PyVal)
    (st : State) (x : list (list R)) :
  (exists f st',
     build (NStr "rect:max") layer kwargs st = (Ok (AFunc f), st')
     /\ call (AFunc f) x st'
        = (Ok (t_map (fun v => (1 + v - Rabs (v - 1)) / 2) x), st'))
  /\ (forall v : R,
        (v <= 1 -> (1 + v - Rabs (v - 1)) / 2 = v)
        /\ (v > 1 -> (1 + v - Rabs (v - 1)) / 2 = 1))
  /\ (exists f st',
        build (NStr "rect:minmax") layer kwargs st = (Ok (AFunc f), st')
        /\ call (AFunc f) x st'
           = (Ok (t_map (fun v => (1 + Rabs v - Rabs (v - 1)) / 2) x), st'))
  /\ (forall v : R,
        (v < 0 -> (1 + Rabs v - Rabs (v - 1)) / 2 = 0)
        /\ (0 <= v <= 1 -> (1 + Rabs v - Rabs (v - 1)) / 2 = v)
        /\ (v > 1 -> (1 + Rabs v - Rabs (v - 1)) / 2 = 1)).
Proof.
  split; [|split; [|split]].
  - eexists _, _. split.
    + apply (build_table_lambda "rect:max" L_rect_max); reflexivity.
    + simpl. unfold lift. rewrite rect_max_elementwise. reflexivity.
  - apply rect_max_elem_cases.
  - eexists _, _. split.
    + apply (build_table_lambda "rect:minmax" L_rect_minmax); reflexivity.
    + simpl. unfold lift. rewrite rect_minmax_elementwise. reflexivity.
  - apply rect_minmax_elem_cases.
Qed.

(** C10: the learnable-parameter list of every constructed Maxout
    activation is [slope] followed by [intercept]: its first entry is the
    shared variable bound to [self.slope] and named by the layer for
    "slope", its second the one bound to [self.intercept] and named for
    "intercept", and there is no third. *)
Theorem Maxout_params_order (name : string) (layer : Layer)
    (kwargs : gmap string PyVal) (st : State) (self : Instance) (st' : State) :
  new CMaxout name layer kwargs st = (Ok self, st') ->
  exists slope intercept,
    i_params self = [slope; intercept]
    /\ i_tensors self !! "slope" = Some slope
    /\ i_tensors self !! "intercept" = Some intercept
    /\ slope <> intercept
    /\ sv_name <$> shared st' !! slope = Some (layer_fmt layer "slope")
    /\ sv_name <$> shared st' !! intercept = Some (layer_fmt layer "intercept").
Proof.
  simpl. intros H.
  destruct (Maxout_init_inv _ _ _ _ _ _ H) as (p & Hkw & Hsize & Hp).
  rewrite (Maxout_init_ok _ _ _ _ p) in H by assumption.
  injection H as <- <-.
  exists (length (shared st)), (S (length (shared st))). simpl.
  split; [reflexivity|]. split; [reflexivity|]. split; [reflexivity|].
  split; [lia|]. split.
  - rewrite list_lookup_middle by reflexivity. reflexivity.
  - rewrite (lookup_app_r (shared st)) by lia.
    replace (S (length (shared st)) - length (shared st))%nat with 1%nat by lia.
    reflexivity.
Qed.

Lemma Maxout_params_order_witness :
  exists self st' slope intercept,
    new CMaxout "maxout" layer3 {["pieces" := PInt 2]} st0 = (Ok self, st')
    /\ i_params self = [slope; intercept]
    /\ sv_name <$> shared st' !! slope = Some "hid1.slope"
    /\ sv_name <$> shared st' !! intercept = Some "hid1.intercept".
Proof.
  pose proof (Maxout_init_ok "maxout" layer3 {["pieces" := PInt 2]} st0 2
                (lookup_singleton_eq _ _) ltac:(simpl; lia) ltac:(lia)) as Hnew.
  destruct (Maxout_params_order _ _ _ _ _ _ Hnew)
    as (slope & intercept & Hparams & _ & _ & _ & Hslope & Hintercept).
  eexists _, _, slope, intercept. split; [exact Hnew|].
  split; [exact Hparams|]. split; [exact Hslope | exact Hintercept].
Defined.

(** * Further properties of the code *)

(** ** The function table *)

Lemma act_table_no_plus (s : string) (e : entry) :
  act_table !! s = Some e -> contains_char plus_char s = false.
Proof.
  intros H. apply elem_of_list_to_map_2 in H.
  repeat (apply elem_of_cons in H; destruct H as [[= -> _]|H]; [reflexivity|]).
  apply elem_of_nil in H. destruct H.
Qed.

Lemma build_table (s : string) (e : entry) (layer : Layer)
    (kwargs : gmap string PyVal) (st : State) :
  act_table !! s = Some e ->
  exists f st',
    build (NStr s) layer kwargs st = (Ok (AFunc f), st')
    /\ func_attrs st' f = Some (mkAttrs (Some (PStr s)) (Some []))
    /\ shared st' = shared st
    /\ match e with
       | E_global g => f = Global g /\ lambdas st' = lambdas st
       | E_lambda body =>
           f = Lambda (length (lambdas st)) body
           /\ lambdas st' = lambdas st ++ [mkAttrs (Some (PStr s)) (Some [])]
           /\ globals st' = globals st
       end.
Proof.
  intros Htab. pose proof (act_table_no_plus _ _ Htab) as Hplus.
  destruct e as [g|body].
  - destruct (build_table_global s g layer kwargs st Hplus Htab)
      as (st' & Hb & Hsh & Hlam & Hg & _).
    exists (Global g), st'. simpl. rewrite Hg. auto.
  - eexists _, _. split; [apply (build_table_lambda s body); assumption|].
    simpl. rewrite list_lookup_middle by reflexivity. auto.
Qed.

(** X1: for every key of the function table, [build] returns a function
    object whose [name] is the key and whose [params] is the empty list, and
    allocates no shared variable, whatever the layer and the keyword
    arguments. *)
Theorem build_table_name_and_params (s : string) (e : entry) (layer : Layer)
    (kwargs : gmap string PyVal) (st : State) :
  act_table !! s = Some e ->
  exists a st',
    build (NStr s) layer kwargs st = (Ok a, st')
    /\ get_name a st' = (Ok (PStr s), st')
    /\ get_params a st' = (Ok [], st')
    /\ shared st' = shared st.
Proof.
  intros Htab.
  destruct (build_table s e layer kwargs st Htab) as (f & st' & Hb & Hattrs & Hsh & _).
  exists (AFunc f), st'. unfold get_name, get_params. rewrite Hattrs. auto.
Qed.

Lemma build_table_name_and_params_witness :
  exists a st',
    build (NStr "softmax") layer3 ∅ st0 = (Ok a, st')
    /\ get_name a st' = (Ok (PStr "softmax"), st')
    /\ get_params a st' = (Ok [], st')
    /\ shared st' = shared st0.
Proof.
  apply (build_table_name_and_params "softmax" (E_global softmax_fn)). reflexivity.
Defined.

(** X2: [build] does not pass its own stateless results through.  For every
    key of the function table, giving the result of [build] back to [build]
    raises [TypeError]: a function object is not an instance of
    [Activation], and ['+' in name] fails on it. *)
Theorem build_twice_table (s : string) (e : entry) (layer : Layer)
    (kwargs : gmap string PyVal) (st : State) :
  act_table !! s = Some e ->
  fst (build_twice s layer kwargs st) = Raise TypeError.
Proof.
  intros Htab.
  destruct (build_table s e layer kwargs st Htab) as (f & st' & Hb & _).
  unfold build_twice. erewrite M_bind_ok by exact Hb. reflexivity.
Qed.

Lemma build_twice_table_witness :
  fst (build_twice "tanh" layer3 ∅ st0) = Raise TypeError.
Proof. apply (build_twice_table "tanh" (E_global TT_tanh)). reflexivity. Defined.

(** X3: two keys of the table that stand for the same global function
    object are aliases.  Building the second returns the very object that
    the first returned and overwrites its [name]: after the two calls both
    results are named by the second key. *)
Theorem build_aliases_rename (k1 k2 : string) (g : global) (layer : Layer)
    (kwargs : gmap string PyVal) (st : State) :
  act_table !! k1 = Some (E_global g) ->
  act_table !! k2 = Some (E_global g) ->
  exists a st',
    build_two k1 k2 layer kwargs st = (Ok (a, a), st')
    /\ get_name a st' = (Ok (PStr k2), st').
Proof.
  intros H1 H2.
  destruct (build_table k1 _ layer kwargs st H1) as (f1 & st1 & Hb1 & _ & _ & -> & _).
  destruct (build_table k2 _ layer kwargs st1 H2) as (f2 & st2 & Hb2 & Hattrs & _ & -> & _).
  exists (AFunc (Global g)), st2. split.
  - unfold build_two. erewrite M_bind_ok by exact Hb1.
    erewrite M_bind_ok by exact Hb2. reflexivity.
  - unfold get_name. rewrite Hattrs. reflexivity.
Qed.

Lemma build_aliases_rename_witness :
  exists a st',
    build_two "logistic" "sigmoid" layer3 ∅ st0 = (Ok (a, a), st')
    /\ get_name a st' = (Ok (PStr "sigmoid"), st').
Proof.
  apply (build_aliases_rename "logistic" "sigmoid" TT_nnet_sigmoid); reflexivity.
Defined.

(** X4: a key of the table that stands for a lambda expression gives a new
    function object on every call: two builds return two distinct objects,
    and the second build leaves the name of the first result as it was. *)
Theorem build_lambdas_are_fresh (k1 k2 : string) (b1 b2 : lam) (layer : Layer)
    (kwargs : gmap string PyVal) (st : State) :
  act_table !! k1 = Some (E_lambda b1) ->
  act_table !! k2 = Some (E_lambda b2) ->
  exists f1 f2 st',
    build_two k1 k2 layer kwargs st = (Ok (AFunc f1, AFunc f2), st')
    /\ func_id f1 <> func_id f2
    /\ get_name (AFunc f1) st' = (Ok (PStr k1), st')
    /\ get_name (AFunc f2) st' = (Ok (PStr k2), st').
Proof.
  intros H1 H2.
  destruct (build_table k1 _ layer kwargs st H1)
    as (f1 & st1 & Hb1 & _ & _ & -> & Hlam1 & _).
  destruct (build_table k2 _ layer kwargs st1 H2)
    as (f2 & st2 & Hb2 & _ & _ & -> & Hlam2 & _).
  eexists _, _, st2. split.
  { unfold build_two. erewrite M_bind_ok by exact Hb1.
    erewrite M_bind_ok by exact Hb2. reflexivity. }
  rewrite Hlam1 in *. rewrite length_app in *. simpl in *.
  split; [intros [= H]; lia|].
  unfold get_name. simpl. rewrite Hlam2. split.
  - rewrite lookup_app_l by (rewrite length_app; simpl; lia).
    rewrite list_lookup_middle by reflexivity. reflexivity.
  - rewrite list_lookup_middle by (rewrite length_app; reflexivity). reflexivity.
Qed.

Lemma build_lambdas_are_fresh_witness :
  exists f1 f2 st',
    build_two "relu" "relu" layer3 ∅ st0 = (Ok (AFunc f1, AFunc f2), st')
    /\ func_id f1 <> func_id f2
    /\ get_name (AFunc f1) st' = (Ok (PStr "relu"), st')
    /\ get_name (AFunc f2) st' = (Ok (PStr "relu"), st').
Proof.
  apply (build_lambdas_are_fresh "relu" "relu" L_relu L_relu); reflexivity.
Defined.

(** ** The rectifiers of the table *)

(** X5: the transform that [build] returns for "relu" maps every entry [x]
    of any tensor to [max(0, x)]. *)
Theorem build_relu_is_max (layer : Layer) (kwargs : gmap string PyVal)
    (st : State) (x : list (list R)) :
  exists f st',
    build (NStr "relu") layer kwargs st = (Ok (AFunc f), st')
    /\ call (AFunc f) x st' = (Ok (t_map (Rmax 0) x), st').
Proof.
  eexists _, _. split.
  - apply (build_table_lambda "relu" L_relu); reflexivity.
  - simpl. unfold lift. rewrite relu_elementwise.
    rewrite (t_map_ext relu_elem (Rmax 0)) by apply relu_elem_max. reflexivity.
Qed.

Lemma rect_max_after_relu (v : R) : rect_max_elem (relu_elem v) = rect_minmax_elem v.
Proof.
  unfold rect_max_elem, relu_elem, rect_minmax_elem, Rabs.
  repeat match goal with |- context [Rcase_abs ?e] => destruct (Rcase_abs e) end; lra.
Qed.

(** X6: on every tensor, the transform of "rect:minmax" is the transform of
    "relu" followed by the transform of "rect:max". *)
Theorem rect_minmax_is_rect_max_after_relu (x : list (list R)) :
  (y ← relu x; rect_max y) = rect_minmax x.
Proof.
  rewrite relu_elementwise. simpl.
  rewrite rect_max_elementwise, rect_minmax_elementwise, t_map_map.
  f_equal. apply t_map_ext. intros v. apply rect_max_after_relu.
Qed.

(** ** The constructors *)

(** X7: the constructor of the leaky-slope-with-gain rectifier returns
    exactly when the size of the layer is not negative (it raises
    [ValueError] and allocates nothing otherwise).  When it returns, it has
    appended two shared variables to the store: [gain], a vector of ones
    named by the layer for "gain", and then [leak], a vector of entries 0.1
    named for "leak"; [params] lists them in this order. *)
Theorem LGrelu_construction (name : string) (layer : Layer)
    (kwargs : gmap string PyVal) (st : State) :
  ((layer_size layer < 0)%Z ->
   new CLGrelu name layer kwargs st = (Raise ValueError, st))
  /\ ((0 <= layer_size layer)%Z ->
      exists self,
        new CLGrelu name layer kwargs st
        = (Ok self,
           mkState
             (shared st ++
                [mkShared (layer_fmt layer "gain")
                   (Vec (repeat 1 (Z.to_nat (layer_size layer))));
                 mkShared (layer_fmt layer "leak")
                   (Vec (repeat (1 / 10) (Z.to_nat (layer_size layer))))])
             (lambdas st) (globals st))
        /\ i_params self = [length (shared st); S (length (shared st))]
        /\ i_tensors self !! "gain" = Some (length (shared st))
        /\ i_tensors self !! "leak" = Some (S (length (shared st)))).
Proof.
  split; intros Hsize; simpl.
  - apply LGrelu_init_neg, Hsize.
  - eexists. split; [apply LGrelu_init_ok, Hsize|].
    split; [reflexivity|]. split; reflexivity.
Qed.

Lemma LGrelu_construction_witness :
  new CLGrelu "lgrelu" (mkLayer (-1) (fun s => s)) ∅ st0 = (Raise ValueError, st0)
  /\ exists self st',
       new CLGrelu "lgrelu" layer3 ∅ st0 = (Ok self, st')
       /\ i_params self = [0; 1]%nat
       /\ sv_name <$> shared st' = ["hid1.gain"; "hid1.leak"].
Proof.
  split.
  - apply (proj1 (LGrelu_construction "lgrelu" (mkLayer (-1) (fun s => s)) ∅ st0)).
    simpl. lia.
  - destruct (proj2 (LGrelu_construction "lgrelu" layer3 ∅ st0))
      as (self & Hnew & Hparams & _).
    + simpl. lia.
    + eexists _, _. split; [exact Hnew|]. split; [exact Hparams | reflexivity].
Defined.

Lemma row_op_zip3 (f : R -> R -> R) (h k : R -> R -> R) (g l r : list R) :
  length g = length l -> length l = length r ->
  row_op f (zip_with h g r) (zip_with k l r)
  = Ok (zip_with (fun gl v => f (h gl.1 v) (k gl.2 v)) (zip g l) r).
Proof.
  unfold row_op. revert l r.
  induction g as [|a g IH]; intros [|b l] [|v r] Hgl Hlr; simpl in *;
    try discriminate; try reflexivity.
  rewrite IH by lia. reflexivity.
Qed.

Lemma lgrelu_elem_cases (gain leak v : R) :
  (0 <= v -> lgrelu_elem gain leak v = gain * v)
  /\ (v < 0 -> lgrelu_elem gain leak v = leak * v).
Proof.
  unfold lgrelu_elem, Rabs. destruct (Rcase_abs v); split; intros; lra.
Qed.

(** X8: the transform of a leaky-slope-with-gain rectifier whose [gain] and
    [leak] hold vectors of n entries maps, on a tensor of shape (..., n),
    the entry [x_i] of every row to [gain_i * x_i] when [x_i] is not
    negative and to [leak_i * x_i] when it is; the store is unchanged. *)
Theorem LGrelu_transform (self : Instance) (lg ll : loc) (gain leak : list R)
    (x : list (list R)) (st : State) :
  i_cls self = CLGrelu ->
  i_tensors self !! "gain" = Some lg ->
  i_tensors self !! "leak" = Some ll ->
  sv_value <$> shared st !! lg = Some (Vec gain) ->
  sv_value <$> shared st !! ll = Some (Vec leak) ->
  length gain = length leak ->
  last_axis (length leak) x ->
  call (AInst self) x st
  = (Ok (map (fun r => zip_with (fun gl v => lgrelu_elem gl.1 gl.2 v)
                         (zip gain leak) r) x), st)
  /\ forall g l v, (0 <= v -> lgrelu_elem g l v = g * v)
                   /\ (v < 0 -> lgrelu_elem g l v = l * v).
Proof.
  intros Hcls Hg Hl Hgv Hlv Hlen Hx. split; [|apply lgrelu_elem_cases].
  simpl. unfold Instance_call. rewrite Hcls. unfold LGrelu_call, t_abs.
  erewrite M_bind_ok by (eapply get_tensor_read_vec; eassumption).
  erewrite M_bind_lift by apply t_op_self_l.
  erewrite M_bind_lift by (apply t_vec_l_map; rewrite Hlen; assumption).
  erewrite M_bind_ok by (eapply get_tensor_read_vec; eassumption).
  erewrite M_bind_lift by apply t_op_self_l.
  erewrite M_bind_lift by (apply t_vec_l_map; assumption).
  rewrite !t_scalar_r_zip. unfold lift. f_equal.
  unfold t_op.
  erewrite (zip_exact_diag (row_op Rplus) _ _
              (fun r => zip_with (fun gl v => lgrelu_elem gl.1 gl.2 v)
                          (zip gain leak) r)); [reflexivity|].
  eapply Forall_impl; [exact Hx|]. intros r Hr. simpl.
  apply (row_op_zip3 Rplus (fun c e => c * (e + Rabs e) / 2)
           (fun c e => c * (e - Rabs e) / 2)); congruence.
Qed.

Lemma LGrelu_transform_witness :
  call (AInst (mkInstance CLGrelu "lgrelu" layer1 ∅ [0; 1]%nat None
                 (<["leak" := 1%nat]> (<["gain" := 0%nat]> ∅))))
    [[-3]]
    (mkState [mkShared "out.gain" (Vec [2]); mkShared "out.leak" (Vec [1 / 10])]
       [] (fun _ => no_attrs))
  = (Ok [[lgrelu_elem 2 (1 / 10) (-3)]],
     mkState [mkShared "out.gain" (Vec [2]); mkShared "out.leak" (Vec [1 / 10])]
       [] (fun _ => no_attrs)).
Proof.
  apply (LGrelu_transform _ 0%nat 1%nat [2] [1 / 10] [[-3]]);
    try reflexivity.
  repeat constructor.
Defined.

(** X9: the name of a learnable tensor depends on the layer and on the
    attribute only.  A leaky-slope-with-gain rectifier and a leaky-slope
    rectifier constructed on the same layer own two different [leak]
    variables that carry the same name. *)
Theorem leak_names_collide (layer : Layer) (kwargs : gmap string PyVal) (st : State) :
  (0 <= layer_size layer)%Z ->
  exists a b st' la lb,
    new_lgrelu_prelu layer kwargs st = (Ok (a, b), st')
    /\ i_tensors a !! "leak" = Some la
    /\ i_tensors b !! "leak" = Some lb
    /\ la <> lb
    /\ sv_name <$> shared st' !! la = Some (layer_fmt layer "leak")
    /\ sv_name <$> shared st' !! lb = Some (layer_fmt layer "leak").
Proof.
  intros Hsize. unfold new_lgrelu_prelu. simpl.
  eexists _, _, _, _, _. split.
  { erewrite M_bind_ok by (apply LGrelu_init_ok, Hsize).
    erewrite M_bind_ok by (apply Prelu_init_ok, Hsize). reflexivity. }
  simpl. split; [reflexivity|]. split; [reflexivity|].
  rewrite length_app. simpl. split; [lia|].
  rewrite <- app_assoc. simpl. split.
  - rewrite (lookup_app_r (shared st)) by lia.
    replace (S (length (shared st)) - length (shared st))%nat with 1%nat by lia.
    reflexivity.
  - rewrite (lookup_app_r (shared st)) by lia.
    replace (length (shared st) + 2 - length (shared st))%nat with 2%nat by lia.
    reflexivity.
Qed.

Lemma leak_names_collide_witness :
  exists a b st' la lb,
    new_lgrelu_prelu layer3 ∅ st0 = (Ok (a, b), st')
    /\ i_tensors a !! "leak" = Some la
    /\ i_tensors b !! "leak" = Some lb
    /\ la <> lb
    /\ sv_name <$> shared st' !! la = Some "hid1.leak"
    /\ sv_name <$> shared st' !! lb = Some "hid1.leak".
Proof.
  apply (leak_names_collide layer3 ∅ st0). simpl. lia.
Defined.

(** What a constructor that returns has built. *)
Lemma new_ok_cases (cls : Cls) (name : string) (layer : Layer)
    (kwargs : gmap string PyVal) (st : State) (self : Instance) (st' : State) :
  new cls name layer kwargs st = (Ok self, st') ->
  let l := length (shared st) in
  (i_params self = [] /\ i_tensors self = ∅)
  \/ (i_params self = [l] /\ i_tensors self = <["leak" := l]> ∅)
  \/ (i_params self = [l; S l]
      /\ i_tensors self = <["leak" := S l]> (<["gain" := l]> ∅))
  \/ (i_params self = [l; S l]
      /\ i_tensors self = <["intercept" := S l]> (<["slope" := l]> ∅)).
Proof.
  destruct cls; simpl.
  - intros [= <- <-]. left. split; reflexivity.
  - destruct (Z_lt_le_dec (layer_size layer) 0).
    + rewrite Prelu_init_neg by assumption. discriminate.
    + rewrite Prelu_init_ok by assumption. intros [= <- <-].
      right. left. split; reflexivity.
  - destruct (Z_lt_le_dec (layer_size layer) 0).
    + rewrite LGrelu_init_neg by assumption. discriminate.
    + rewrite LGrelu_init_ok by assumption. intros [= <- <-].
      right. right. left. split; reflexivity.
  - intros H. destruct (Maxout_init_inv _ _ _ _ _ _ H) as (p & Hkw & Hsize & Hp).
    rewrite (Maxout_init_ok _ _ _ _ p) in H by assumption.
    injection H as <- <-. right. right. right. split; reflexivity.
Qed.

(** X10: whenever a constructor returns, the learnable-parameter list of the
    instance has no duplicates, holds exactly the shared variables that the
    constructor just allocated (none of them existed before, all of them
    exist now, and nothing else was allocated), and holds exactly the
    shared variables that the attributes of the instance are bound to. *)
Theorem new_params_invariant (cls : Cls) (name : string) (layer : Layer)
    (kwargs : gmap string PyVal) (st : State) (self : Instance) (st' : State) :
  new cls name layer kwargs st = (Ok self, st') ->
  NoDup (i_params self)
  /\ (forall l, l ∈ i_params self <->
                (length (shared st) <= l < length (shared st'))%nat)
  /\ (forall l, l ∈ i_params self <-> exists attr, i_tensors self !! attr = Some l).
Proof.
  intros H. pose proof (new_frame cls name layer kwargs st) as Hf.
  rewrite H in Hf. destruct Hf as (_ & _ & added & Hsh & Hpar).
  split; [rewrite Hpar; apply NoDup_seq|]. split.
  - intros l. rewrite Hpar, Hsh, length_app, elem_of_seq. lia.
  - intros l. destruct (new_ok_cases _ _ _ _ _ _ _ H)
      as [[-> ->]|[[-> ->]|[[-> ->]|[-> ->]]]].
    + split; [intros Hl; apply elem_of_nil in Hl; destruct Hl|].
      intros (attr & Hattr). rewrite lookup_empty in Hattr. discriminate.
    + rewrite list_elem_of_singleton. split.
      * intros ->. exists "leak". apply lookup_insert_eq.
      * intros (attr & Hattr). apply lookup_insert_Some in Hattr.
        destruct Hattr as [[_ <-]|[_ Hattr]]; [reflexivity|].
        rewrite lookup_empty in Hattr. discriminate.
    + rewrite elem_of_cons, list_elem_of_singleton. split.
      * intros [->| ->]; [exists "gain" | exists "leak"].
        -- rewrite lookup_insert_ne by discriminate. apply lookup_insert_eq.
        -- apply lookup_insert_eq.
      * intros (attr & Hattr). apply lookup_insert_Some in Hattr.
        destruct Hattr as [[_ <-]|[_ Hattr]]; [right; reflexivity|].
        apply lookup_insert_Some in Hattr.
        destruct Hattr as [[_ <-]|[_ Hattr]]; [left; reflexivity|].
        rewrite lookup_empty in Hattr. discriminate.
    + rewrite elem_of_cons, list_elem_of_singleton. split.
      * intros [->| ->]; [exists "slope" | exists "intercept"].
        -- rewrite lookup_insert_ne by discriminate. apply lookup_insert_eq.
        -- apply lookup_insert_eq.
      * intros (attr & Hattr). apply lookup_insert_Some in Hattr.
        destruct Hattr as [[_ <-]|[_ Hattr]]; [right; reflexivity|].
        apply lookup_insert_Some in Hattr.
        destruct Hattr as [[_ <-]|[_ Hattr]]; [left; reflexivity|].
        rewrite lookup_empty in Hattr. discriminate.
Qed.

Lemma new_params_invariant_witness :
  exists self st',
    new CLGrelu "lgrelu" layer3 ∅ st0 = (Ok self, st')
    /\ NoDup (i_params self)
    /\ (forall l, l ∈ i_params self <-> (0 <= l < 2)%nat).
Proof.
  pose proof (LGrelu_init_ok "lgrelu" layer3 ∅ st0 ltac:(simpl; lia)) as Hnew.
  destruct (new_params_invariant CLGrelu _ _ _ _ _ _ Hnew) as (Hnd & Hrange & _).
  eexists _, _. split; [exact Hnew|]. split; [exact Hnd | exact Hrange].
Defined.

(** ** Names with a '+' *)

(** X11: every name that contains a '+', whatever stands around it, makes
    [build] raise [TypeError] and leave the store as it was: the first
    sub-build is called without [layer]. *)
Theorem build_plus_always_raises (s : string) (layer : Layer)
    (kwargs : gmap string PyVal) (st : State) :
  contains_char plus_char s = true ->
  build (NStr s) layer kwargs st = (Raise TypeError, st).
Proof. apply build_plus. Qed.

Lemma build_plus_always_raises_witness :
  build (NStr "leaky-relu+") layer3 {["pieces" := PInt 2]} st0 = (Raise TypeError, st0)
  /\ build (NStr "+") layer3 ∅ st0 = (Raise TypeError, st0).
Proof.
  split; apply build_plus_always_raises; reflexivity.
Defined.

(** ** Composition by hand *)

Lemma M_bind_assoc {A B C} (m : M A) (f : A -> M B) (g : B -> M C) (st : State) :
  ((m ≫= f) ≫= g) st = (m ≫= (fun a => f a ≫= g)) st.
Proof.
  unfold mbind, M_bind. destruct (m st) as [[a|e] st1]; reflexivity.
Qed.

(** X12: composition is associative in effect.  If [compose] is used to
    build [(a then b) then c] and [a then (b then c)], the two closures
    give the same outcome on every tensor in every store. *)
Theorem compose_associative (a b c : activation) (st1 st2 st3 st4 : State)
    (ab abc bc a_bc : activation) (st1' st2' st3' st4' : State)
    (x : list (list R)) (st : State) :
  compose a b st1 = (Ok ab, st1') ->
  compose ab c st2 = (Ok abc, st2') ->
  compose b c st3 = (Ok bc, st3') ->
  compose a bc st4 = (Ok a_bc, st4') ->
  call abc x st = call a_bc x st.
Proof.
  intros H1 H2 H3 H4.
  rewrite (compose_call _ _ _ _ _ x st H2), (compose_call _ _ _ _ _ x st H4).
  unfold mbind, M_bind.
  rewrite (compose_call _ _ _ _ _ x st H1). unfold mbind, M_bind.
  destruct (call a x st) as [[y|e] s']; [|reflexivity].
  rewrite (compose_call _ _ _ _ _ y s' H3). reflexivity.
Qed.

Lemma compose_associative_witness :
  call (AFunc (Lambda 3
          (L_compose
             (AFunc (Lambda 2
                       (L_compose (AFunc (Global TT_tanh)) (AFunc (Lambda 0 L_relu)))))
             (AFunc (Lambda 1 L_linear))))) [[1; -1]] st0
  = call (AFunc (Lambda 3
            (L_compose (AFunc (Global TT_tanh))
               (AFunc (Lambda 2
                         (L_compose (AFunc (Lambda 0 L_relu))
                            (AFunc (Lambda 1 L_linear)))))))) [[1; -1]] st0.
Proof.
  pose (s1 := mkState []
                [mkAttrs (Some (PStr "relu")) (Some []);
                 mkAttrs (Some (PStr "linear")) (Some [])]
                (fun _ => mkAttrs (Some (PStr "tanh")) (Some []))).
  pose (s2 := mkState []
                [mkAttrs (Some (PStr "relu")) (Some []);
                 mkAttrs (Some (PStr "linear")) (Some []);
                 mkAttrs (Some (PList [PStr "inner"])) None]
                (fun _ => mkAttrs (Some (PStr "tanh")) (Some []))).
  eapply (compose_associative
            (AFunc (Global TT_tanh)) (AFunc (Lambda 0 L_relu))
            (AFunc (Lambda 1 L_linear)) s1 s2 s1 s2).
  - reflexivity.
  - reflexivity.
  - reflexivity.
  - reflexivity.
Defined.

(** ** [softmax] *)

Lemma zip_exact_self {A B C} (f : A -> B -> result C) (h : A -> B) (k : A -> C)
    (l : list A) :
  Forall (fun a => f a (h a) = Ok (k a)) l ->
  zip_exact f l (map h l) = Ok (map k l).
Proof.
  induction 1 as [|a l Ha _ IH]; simpl; [reflexivity|].
  rewrite Ha. simpl. rewrite IH. reflexivity.
Qed.

Lemma t_col_op_self (f : R -> R -> R) (h : list R -> R) (x : list (list R)) :
  t_col_op f x (map h x) = Ok (map (fun r => map (fun v => f v (h r)) r) x).
Proof.
  unfold t_col_op.
  apply (zip_exact_self _ h (fun r => map (fun v => f v (h r)) r)).
  apply Forall_forall. intros r _. reflexivity.
Qed.

Lemma rows_nonempty_or_not (x : list (list R)) :
  Forall (fun r => r <> []) x \/ In [] x.
Proof.
  induction x as [|r x [IH|IH]].
  - left. constructor.
  - destruct r as [|v r].
    + right. left. reflexivity.
    + left. constructor; [discriminate | exact IH].
  - right. right. exact IH.
Qed.

Lemma t_max_keep_ok (x : list (list R)) :
  Forall (fun r => r <> []) x -> t_max_keep x = Ok (map max_or_zero x).
Proof.
  intros H. unfold t_max_keep. apply traverse_pointwise.
  eapply Forall_impl; [exact H|]. intros r Hr. apply row_max_ok, Hr.
Qed.

Lemma t_max_keep_empty_row (x : list (list R)) :
  In [] x -> t_max_keep x = Raise ValueError.
Proof.
  unfold t_max_keep. induction x as [|r x IH]; intros Hin; [destruct Hin|].
  destruct r as [|v r]; [reflexivity|].
  destruct Hin as [Heq|Hin]; [discriminate|].
  simpl. rewrite (IH Hin). reflexivity.
Qed.

Lemma softmax_rows (x : list (list R)) :
  Forall (fun r => r <> []) x -> softmax x = Ok (map softmax_row x).
Proof.
  intros H. unfold softmax. rewrite t_max_keep_ok by assumption. simpl.
  rewrite t_col_op_self. simpl.
  unfold t_sum_keep. rewrite t_col_op_self.
  f_equal. unfold t_map. rewrite !map_map. apply map_ext. intros r.
  unfold softmax_row. rewrite !map_map. reflexivity.
Qed.

Lemma row_sum_map_div (c : R) (z : list R) :
  row_sum (map (fun e => e / c) z) = row_sum z / c.
Proof.
  unfold row_sum. induction z as [|a z IH]; simpl.
  - unfold Rdiv. ring.
  - rewrite IH. unfold Rdiv. ring.
Qed.

Lemma row_sum_pos (z : list R) :
  Forall (fun e => 0 < e) z -> z <> [] -> 0 < row_sum z.
Proof.
  unfold row_sum. induction 1 as [|a z Ha Hz IH]; [congruence|]. intros _. simpl.
  destruct z as [|b z].
  - simpl. lra.
  - assert (0 < fold_right Rplus 0 (b :: z)) by (apply IH; discriminate). lra.
Qed.

Lemma softmax_row_spec (r : list R) :
  r <> [] ->
  length (softmax_row r) = length r
  /\ row_sum (softmax_row r) = 1
  /\ Forall (fun e => 0 < e) (softmax_row r).
Proof.
  intros Hr. unfold softmax_row.
  set (z := map exp (map (fun v => v - max_or_zero r) r)).
  assert (Hz : Forall (fun e => 0 < e) z).
  { unfold z. rewrite map_map. apply Forall_forall. intros e He.
    apply list_elem_of_fmap in He. destruct He as (v & -> & _). apply exp_pos. }
  assert (Hne : z <> []).
  { unfold z. destruct r; [congruence | discriminate]. }
  pose proof (row_sum_pos z Hz Hne) as Hpos.
  split; [unfold z; rewrite !length_map; reflexivity|]. split.
  - rewrite row_sum_map_div. field. lra.
  - apply Forall_forall. intros e He.
    apply list_elem_of_fmap in He. destruct He as (a & -> & Ha).
    rewrite Forall_forall in Hz. specialize (Hz a Ha).
    apply Rdiv_lt_0_compat; assumption.
Qed.

(** X13: on a tensor none of whose rows is empty, [softmax] returns a
    tensor of the same shape in which every entry is positive and every row
    sums to one. *)
Theorem softmax_rows_are_distributions (x : list (list R)) :
  Forall (fun r => r <> []) x ->
  exists y,
    softmax x = Ok y
    /\ shape y = shape x
    /\ Forall (fun r => row_sum r = 1 /\ Forall (fun e => 0 < e) r) y.
Proof.
  intros H. exists (map softmax_row x). split; [apply softmax_rows, H|]. split.
  - unfold shape. rewrite map_map. apply map_ext_Forall.
    eapply Forall_impl; [exact H|]. intros r Hr. simpl.
    apply softmax_row_spec, Hr.
  - apply Forall_map. eapply Forall_impl; [exact H|]. intros r Hr. simpl.
    apply softmax_row_spec, Hr.
Qed.

Lemma softmax_rows_are_distributions_witness :
  exists y, softmax [[0; 1]; [2]] = Ok y
            /\ shape y = [2; 1]%nat
            /\ Forall (fun r => row_sum r = 1 /\ Forall (fun e => 0 < e) r) y.
Proof.
  apply (softmax_rows_are_distributions [[0; 1]; [2]]).
  repeat constructor; discriminate.
Defined.

(** X14: on a tensor with an empty row, the two transforms of the table
    that take a maximum along the last axis, [softmax] and "norm:max",
    raise [ValueError]. *)
Theorem max_of_empty_row_raises (x : list (list R)) :
  In [] x ->
  softmax x = Raise ValueError /\ norm_max x = Raise ValueError.
Proof.
  intros Hin. split.
  - unfold softmax. rewrite t_max_keep_empty_row by assumption. reflexivity.
  - unfold norm_max. rewrite t_max_keep_empty_row; [reflexivity|].
    unfold t_abs, t_map. apply in_map_iff. exists []. split; [reflexivity | exact Hin].
Qed.

Lemma max_of_empty_row_raises_witness :
  softmax [[1]; []] = Raise ValueError /\ norm_max [[1]; []] = Raise ValueError.
Proof.
  apply max_of_empty_row_raises. right. left. reflexivity.
Defined.

Lemma max_or_zero_shift (r : list R) (c : R) :
  r <> [] -> max_or_zero (map (fun v => v + c) r) = max_or_zero r + c.
Proof.
  destruct r as [|v vs]; [congruence|]. intros _. simpl. revert v.
  induction vs as [|w vs IH]; intros v; simpl; [reflexivity|].
  replace (Rmax (v + c) (w + c)) with (Rmax v w + c).
  - apply IH.
  - unfold Rmax. destruct (Rle_dec v w), (Rle_dec (v + c) (w + c)); lra.
Qed.

Lemma softmax_row_shift (r : list R) (c : R) :
  softmax_row (map (fun v => v + c) r) = softmax_row r.
Proof.
  destruct r as [|v vs]; [reflexivity|].
  unfold softmax_row.
  rewrite max_or_zero_shift by discriminate.
  assert (Hz : map exp (map (fun u => u - (max_or_zero (v :: vs) + c))
                          (map (fun u => u + c) (v :: vs)))
               = map exp (map (fun u => u - max_or_zero (v :: vs)) (v :: vs))).
  { rewrite !map_map. apply map_ext. intros u. f_equal. lra. }
  rewrite Hz. reflexivity.
Qed.

(** X15: [softmax] does not change when a constant is added to every entry
    of a row, one constant per row: the outcome, value or exception, is the
    same. *)
Theorem softmax_shift_invariant (x : list (list R)) (cs : list R) :
  length cs = length x ->
  softmax (zip_with (fun r c => map (fun v => v + c) r) x cs) = softmax x.
Proof.
  intros Hlen. destruct (rows_nonempty_or_not x) as [Hne|Hin].
  - rewrite (softmax_rows x) by assumption.
    rewrite softmax_rows.
    + f_equal. revert cs Hlen. induction x as [|r x IH]; intros [|c cs] Hlen;
        simpl in *; try discriminate; [reflexivity|].
      inversion Hne; subst.
      rewrite softmax_row_shift. f_equal. apply IH; [assumption | lia].
    + revert cs Hlen. induction Hne as [|r x Hr _ IH]; intros [|c cs] Hlen;
        simpl in *; try discriminate; constructor.
      * destruct r; [congruence | discriminate].
      * apply IH. lia.
  - destruct (max_of_empty_row_raises x Hin) as [-> _].
    unfold softmax. rewrite t_max_keep_empty_row; [reflexivity|].
    revert cs Hlen. induction x as [|r x IH]; intros [|c cs] Hlen;
      simpl in *; try discriminate; [destruct Hin|].
    destruct Hin as [->|Hin]; [left; reflexivity|].
    right. apply IH; [assumption | lia].
Qed.

Lemma softmax_shift_invariant_witness :
  softmax (zip_with (fun r c => map (fun v => v + c) r) [[0; 1]; [5]] [2; 3])
  = softmax [[0; 1]; [5]].
Proof.
  apply (softmax_shift_invariant [[0; 1]; [5]] [2; 3]). reflexivity.
Defined.

(** ** The batch normalisations *)


Lemma norm_std_rows (x : list (list R)) :
  norm_std x = Ok (map (fun r => map (fun v => v / (row_std r + eps)) r) x).
Proof.
  unfold norm_std, t_std_keep, col_add. rewrite map_map.
  apply (t_col_op_self Rdiv (fun r => row_std r + eps)).
Qed.


Lemma norm_max_rows (x : list (list R)) :
  Forall (fun r => r <> []) x ->
  norm_max x
  = Ok (map (fun r => map (fun v => v / (max_or_zero (map Rabs r) + eps)) r) x).
Proof.
  intros H. unfold norm_max, t_max_keep, t_abs, t_map.
  rewrite (traverse_map_pointwise row_max (map Rabs)
             (fun r => max_or_zero (map Rabs r))).
  - simpl. unfold col_add. rewrite map_map.
    apply (t_col_op_self Rdiv (fun r => max_or_zero (map Rabs r) + eps)).
  - eapply Forall_impl; [exact H|]. intros r Hr. simpl.
    apply row_max_ok. destruct r; [congruence | discriminate].
Qed.



Lemma eps_pos : 0 < eps.
Proof. unfold eps. lra. Qed.


(** X17: on a tensor none of whose rows is empty, "norm:max" returns a
    tensor of the same shape all of whose entries lie strictly between -1
    and 1. *)
Theorem norm_max_bounded (x : list (list R)) :
  Forall (fun r => r <> []) x ->
  exists y,
    norm_max x = Ok y
    /\ shape y = shape x
    /\ Forall (Forall (fun e => Rabs e < 1)) y.
Proof.
  intros H. eexists. split; [apply norm_max_rows, H|]. split.
  - unfold shape. rewrite map_map. apply map_ext. intros r. apply length_map.
  - apply Forall_map. eapply Forall_impl; [exact H|]. intros r Hr. simpl.
    apply Forall_map, Forall_forall. intros v Hv. simpl.
    assert (Hmax : Rabs v <= max_or_zero (map Rabs r)).
    { apply max_or_zero_spec.
      - destruct r; [congruence | discriminate].
      - apply in_map, list_elem_of_In, Hv. }
    pose proof (Rabs_pos v) as Hpos. pose proof eps_pos as Heps.
    set (d := max_or_zero (map Rabs r) + eps) in *.
    assert (Hd : 0 < d) by (unfold d; lra).
    unfold Rdiv. rewrite Rabs_mult, (Rabs_right (/ d)).
    + apply (Rmult_lt_reg_r d); [exact Hd|].
      rewrite Rmult_assoc, Rinv_l by lra. unfold d. lra.
    + apply Rle_ge, Rlt_le, Rinv_0_lt_compat, Hd.
Qed.

Lemma norm_max_bounded_witness :
  exists y,
    norm_max [[3; -4]; [0]] = Ok y
    /\ shape y = [2; 1]%nat
    /\ Forall (Forall (fun e => Rabs e < 1)) y.
Proof.
  apply (norm_max_bounded [[3; -4]; [0]]).
  repeat constructor; discriminate.
Defined.

(** ** Shapes *)

Lemma result_bind_inv {A B} (r : result A) (k : A -> result B) (b : B) :
  r ≫= k = Ok b -> exists a, r = Ok a /\ k a = Ok b.
Proof. destruct r as [a|e]; simpl; [eauto | discriminate]. Qed.

Lemma M_bind_inv {A B} (m : M A) (k : A -> M B) (st : State) (b : B) (st' : State) :
  (m ≫= k) st = (Ok b, st') ->
  exists a st1, m st = (Ok a, st1) /\ k a st1 = (Ok b, st').
Proof.
  unfold mbind, M_bind. destruct (m st) as [[a|e] st1]; [eauto | discriminate].
Qed.

Lemma lift_inv {A} (r : result A) (st : State) (a : A) (st' : State) :
  lift r st = (Ok a, st') -> r = Ok a.
Proof. unfold lift. intros [= -> _]. reflexivity. Qed.

Lemma traverse_Forall2 {A B} (f : A -> result B) (P : A -> B -> Prop)
    (l : list A) (r : list B) :
  (forall a b, f a = Ok b -> P a b) ->
  traverse f l = Ok r -> Forall2 P l r.
Proof.
  intros HP. revert r. induction l as [|a l IH]; intros r; simpl.
  - intros [= <-]. constructor.
  - intros H. apply result_bind_inv in H. destruct H as (b & Hb & H).
    apply result_bind_inv in H. destruct H as (bs & Hbs & [= <-]).
    constructor; [apply HP, Hb | apply IH, Hbs].
Qed.

Lemma zip_exact_Forall2 {A B C} (f : A -> B -> result C) (P : A -> C -> Prop)
    (Q : B -> C -> Prop) (l : list A) (k : list B) (r : list C) :
  (forall a b c, f a b = Ok c -> P a c /\ Q b c) ->
  zip_exact f l k = Ok r -> Forall2 P l r /\ Forall2 Q k r.
Proof.
  intros HP. revert k r. induction l as [|a l IH]; intros [|b k] r; simpl;
    try discriminate.
  - intros [= <-]. split; constructor.
  - intros H. apply result_bind_inv in H. destruct H as (c & Hc & H).
    apply result_bind_inv in H. destruct H as (cs & Hcs & [= <-]).
    destruct (HP _ _ _ Hc), (IH _ _ Hcs). split; constructor; assumption.
Qed.

Lemma Forall2_lengths {A B} (l : list (list A)) (k : list (list B)) :
  Forall2 (fun a c => length c = length a) l k -> map length k = map length l.
Proof. induction 1 as [|a c l k H _ IH]; simpl; [reflexivity | congruence]. Qed.

Lemma row_op_lengths (f : R -> R -> R) (r s y : list R) :
  row_op f r s = Ok y -> length y = length r /\ length y = length s.
Proof.
  unfold row_op. intros H.
  apply (zip_exact_Forall2 _ (fun _ _ => True) (fun _ _ => True)) in H; [|auto].
  destruct H as [H1 H2]. apply Forall2_length in H1, H2. lia.
Qed.

Lemma shape_t_map (f : R -> R) (x : list (list R)) : shape (t_map f x) = shape x.
Proof.
  unfold shape, t_map. rewrite map_map. apply map_ext. intros r. apply length_map.
Qed.

Lemma t_op_shape (f : R -> R -> R) (x y z : list (list R)) :
  t_op f x y = Ok z -> shape z = shape x.
Proof.
  unfold t_op. intros H.
  apply (zip_exact_Forall2 _ (fun a c => length c = length a) (fun _ _ => True)) in H.
  - apply Forall2_lengths, H.
  - intros a b c Hc. split; [apply (row_op_lengths _ _ _ _ Hc) | exact I].
Qed.

Lemma t_vec_l_shape (f : R -> R -> R) (v : list R) (x z : list (list R)) :
  t_vec_l f v x = Ok z -> shape z = shape x.
Proof.
  unfold t_vec_l. intros H.
  apply (traverse_Forall2 _ (fun a c => length c = length a)) in H.
  - apply Forall2_lengths, H.
  - intros a b Hb. apply (row_op_lengths _ _ _ _ Hb).
Qed.

Lemma t_col_op_shape (f : R -> R -> R) (x : list (list R)) (c : list R)
    (z : list (list R)) :
  t_col_op f x c = Ok z -> shape z = shape x.
Proof.
  unfold t_col_op. intros H.
  apply (zip_exact_Forall2 _ (fun a c => length c = length a) (fun _ _ => True)) in H.
  - apply Forall2_lengths, H.
  - intros a b d [= <-]. split; [apply length_map | exact I].
Qed.

Lemma softmax_shape (x y : list (list R)) : softmax x = Ok y -> shape y = shape x.
Proof.
  unfold softmax. intros H.
  apply result_bind_inv in H. destruct H as (m & _ & H).
  apply result_bind_inv in H. destruct H as (d & Hd & H).
  apply t_col_op_shape in H, Hd. rewrite H, shape_t_map. exact Hd.
Qed.

Lemma call_lam_table_shape (body : lam) (x y : list (list R)) (st st' : State) :
  (forall a b, body <> L_compose a b) ->
  call_lam body x st = (Ok y, st') -> shape y = shape x.
Proof.
  intros Hbody. destruct body; simpl; intros H;
    try (apply lift_inv in H).
  - injection H as <-. reflexivity.
  - rewrite relu_elementwise in H. injection H as <-. apply shape_t_map.
  - rewrite rect_max_elementwise in H. injection H as <-. apply shape_t_map.
  - rewrite rect_minmax_elementwise in H. injection H as <-. apply shape_t_map.
  - apply (t_col_op_shape _ _ _ _ H).
  - unfold norm_max in H. apply result_bind_inv in H. destruct H as (m & _ & H).
    apply (t_col_op_shape _ _ _ _ H).
  - apply (t_col_op_shape _ _ _ _ H).
  - unfold norm_z in H. apply result_bind_inv in H. destruct H as (n & Hn & H).
    apply t_col_op_shape in H, Hn. congruence.
  - exfalso. eapply Hbody. reflexivity.
Qed.

Lemma pos_part_shape (x s : list (list R)) (f : R -> R -> R) :
  t_op f x (t_abs x) = Ok s -> shape (t_scalar_r Rdiv s 2) = shape x.
Proof.
  intros H. unfold t_scalar_r. rewrite shape_t_map. apply (t_op_shape _ _ _ _ H).
Qed.

Lemma Prelu_call_shape (self : Instance) (x y : list (list R)) (st st' : State) :
  Prelu_call self x st = (Ok y, st') -> shape y = shape x.
Proof.
  unfold Prelu_call. intros H.
  apply M_bind_inv in H. destruct H as (s & st1 & Hs & H). apply lift_inv in Hs.
  apply M_bind_inv in H. destruct H as (leak & st2 & _ & H).
  apply M_bind_inv in H. destruct H as (d & st3 & _ & H).
  apply M_bind_inv in H. destruct H as (ld & st4 & _ & H).
  apply lift_inv, t_op_shape in H. rewrite H. apply (pos_part_shape _ _ _ Hs).
Qed.

Lemma LGrelu_call_shape (self : Instance) (x y : list (list R)) (st st' : State) :
  LGrelu_call self x st = (Ok y, st') -> shape y = shape x.
Proof.
  unfold LGrelu_call. intros H.
  apply M_bind_inv in H. destruct H as (gain & st1 & _ & H).
  apply M_bind_inv in H. destruct H as (s & st2 & Hs & H). apply lift_inv in Hs.
  apply M_bind_inv in H. destruct H as (gs & st3 & Hgs & H). apply lift_inv in Hgs.
  apply M_bind_inv in H. destruct H as (leak & st4 & _ & H).
  apply M_bind_inv in H. destruct H as (d & st5 & _ & H).
  apply M_bind_inv in H. destruct H as (ld & st6 & _ & H).
  apply lift_inv, t_op_shape in H. rewrite H.
  unfold t_scalar_r. rewrite shape_t_map.
  rewrite (t_vec_l_shape _ _ _ _ Hgs). apply (t_op_shape _ _ _ _ Hs).
Qed.

Lemma Maxout_call_shape (self : Instance) (x y : list (list R)) (st st' : State) :
  Maxout_call self x st = (Ok y, st') -> shape y = shape x.
Proof.
  unfold Maxout_call. intros H.
  apply M_bind_inv in H. destruct H as (slope & st1 & _ & H).
  apply M_bind_inv in H. destruct H as (xs & st2 & Hxs & H). apply lift_inv in Hxs.
  apply M_bind_inv in H. destruct H as (intercept & st3 & _ & H).
  apply M_bind_inv in H. destruct H as (y3 & st4 & Hy3 & H). apply lift_inv in Hy3.
  apply lift_inv in H.
  unfold t3_max_last in H.
  apply (traverse_Forall2 _ (fun a c => length c = length a)) in H.
  2:{ intros a b Hb.
      apply (traverse_Forall2 _ (fun _ _ => True)) in Hb; [|auto].
      symmetry. apply (Forall2_length _ _ _ Hb). }
  unfold t3_vec_r in Hy3.
  apply (traverse_Forall2 _ (fun a c => length c = length a)) in Hy3.
  2:{ intros a b Hb.
      apply (traverse_Forall2 _ (fun _ _ => True)) in Hb; [|auto].
      symmetry. apply (Forall2_length _ _ _ Hb). }
  unfold t3_mat_op in Hxs.
  apply (traverse_Forall2 _ (fun a c => length c = length a)) in Hxs.
  2:{ intros a b Hb.
      apply (zip_exact_Forall2 _ (fun _ _ => True) (fun _ _ => True)) in Hb; [|auto].
      symmetry. apply (Forall2_length _ _ _ (proj1 Hb)). }
  apply Forall2_lengths in H, Hy3, Hxs.
  unfold shape. rewrite H, Hy3, Hxs. unfold t_expand_last.
  rewrite map_map. apply map_ext. intros r. apply length_map.
Qed.

(** X18: whatever activation is applied, to whatever tensor in whatever
    store: when the transform returns, its result has the shape of its
    input (as many rows, each as long).  This holds for the table
    functions, for the three classes and for every composition of them. *)
Theorem call_preserves_shape (a : activation) :
  forall (x y : list (list R)) (st st' : State),
    call a x st = (Ok y, st') -> shape y = shape x.
Proof.
  induction a using activation_mut with
    (P0 := fun f => forall x y st st', call_func f x st = (Ok y, st') ->
                                       shape y = shape x)
    (P1 := fun b => forall x y st st', call_lam b x st = (Ok y, st') ->
                                       shape y = shape x);
    intros x y st st' H;
    try (eapply call_lam_table_shape; [|exact H]; discriminate).
  - apply (IHa _ _ _ _ H).
  - simpl in H. unfold Instance_call in H.
    destruct (i_cls i); [discriminate | | |].
    + apply (Prelu_call_shape _ _ _ _ _ H).
    + apply (LGrelu_call_shape _ _ _ _ _ H).
    + apply (Maxout_call_shape _ _ _ _ _ H).
  - simpl in H. apply lift_inv in H. destruct g; simpl in H.
    + injection H as <-. apply shape_t_map.
    + injection H as <-. apply shape_t_map.
    + apply softmax_shape, H.
    + injection H as <-. apply shape_t_map.
  - apply (IHa _ _ _ _ H).
  - simpl in H. apply M_bind_inv in H. destruct H as (z & st1 & Hz & H).
    rewrite (IHa2 _ _ _ _ H). apply (IHa1 _ _ _ _ Hz).
Qed.

Lemma call_preserves_shape_witness :
  shape (t_map relu_elem [[1; -2]; [3]]) = shape [[1; -2]; [3]].
Proof.
  apply (call_preserves_shape (AFunc (Lambda 0 L_relu)) _ _ st0 st0).
  simpl. unfold lift. rewrite relu_elementwise. reflexivity.
Defined.

(** ** Maxout, at its initial values and as a generalisation *)

Lemma max_or_zero_repeat (c : R) (k : nat) :
  (0 < k)%nat -> max_or_zero (repeat c k) = c.
Proof.
  destruct k as [|k]; [lia|]. intros _. simpl.
  induction k as [|k IH]; simpl; [reflexivity|].
  replace (Rmax c c) with c; [exact IH|].
  unfold Rmax. destruct (Rle_dec c c); reflexivity.
Qed.

Lemma maxout_pieces_repeat (b m v : R) (k : nat) :
  maxout_pieces (repeat b k) v (repeat m k) = repeat (v * m + b) k.
Proof.
  unfold maxout_pieces. induction k as [|k IH]; simpl; [reflexivity|].
  rewrite IH. reflexivity.
Qed.

Lemma zip_with_repeat_r {A B C} (f : A -> B -> C) (r : list A) (b : B) :
  zip_with f r (repeat b (length r)) = map (fun a => f a b) r.
Proof. induction r as [|a r IH]; simpl; [reflexivity | rewrite IH; reflexivity]. Qed.

(** X19: a Maxout activation that has just been constructed with a positive
    piece count, applied in the store that its constructor left (slopes and
    intercepts all one), maps every entry [x] of a tensor of shape (..., n)
    to [x + 1]. *)
Theorem Maxout_initial_transform (name : string) (layer : Layer)
    (kwargs : gmap string PyVal) (st : State) (p : Z) :
  kwargs !! "pieces" = Some (PInt p) ->
  (0 <= layer_size layer)%Z ->
  (0 < p)%Z ->
  exists self st',
    new CMaxout name layer kwargs st = (Ok self, st')
    /\ forall x : list (list R),
         last_axis (Z.to_nat (layer_size layer)) x ->
         call (AInst self) x st' = (Ok (t_map (fun v => v + 1) x), st').
Proof.
  intros Hkw Hsize Hp. eexists _, _. split.
  { simpl. apply Maxout_init_ok; (eassumption || lia). }
  intros x Hx. simpl. unfold Instance_call. simpl.
  erewrite (Maxout_call_elementwise _ (length (shared st)) (S (length (shared st)))
              (repeat (repeat 1 (Z.to_nat p)) (Z.to_nat (layer_size layer)))
              (repeat 1 (Z.to_nat p))).
  - f_equal. f_equal. unfold t_map. apply map_ext_Forall.
    eapply Forall_impl; [exact Hx|]. intros r Hr. simpl.
    rewrite <- Hr, zip_with_repeat_r. apply map_ext. intros v.
    unfold maxout_unit. rewrite maxout_pieces_repeat, max_or_zero_repeat by lia. lra.
  - reflexivity.
  - reflexivity.
  - simpl. rewrite list_lookup_middle by reflexivity. reflexivity.
  - simpl. rewrite (lookup_app_r (shared st)) by lia.
    replace (S (length (shared st)) - length (shared st))%nat with 1%nat by lia.
    reflexivity.
  - apply Forall_forall. intros mr Hmr.
    apply list_elem_of_In, repeat_spec in Hmr. subst mr.
    rewrite !repeat_length. reflexivity.
  - destruct (Z.to_nat p) eqn:Hk; [lia | discriminate].
  - rewrite repeat_length. exact Hx.
Qed.

Lemma Maxout_initial_transform_witness :
  exists self st',
    new CMaxout "maxout" layer3 {["pieces" := PInt 4]} st0 = (Ok self, st')
    /\ call (AInst self) [[1; 2; 3]] st' = (Ok [[1 + 1; 2 + 1; 3 + 1]], st').
Proof.
  destruct (Maxout_initial_transform "maxout" layer3 {["pieces" := PInt 4]} st0 4)
    as (self & st' & Hnew & Hcall).
  - apply lookup_singleton_eq.
  - simpl. lia.
  - lia.
  - exists self, st'. split; [exact Hnew|].
    apply (Hcall [[1; 2; 3]]). repeat constructor.
Defined.

Lemma maxout_unit_prelu (leak v : R) :
  leak <= 1 -> maxout_unit [0; 0] v [leak; 1] = prelu_elem leak v.
Proof.
  intros Hl. unfold maxout_unit, maxout_pieces, prelu_elem. simpl.
  unfold Rmax, Rabs.
  destruct (Rle_dec (v * leak + 0) (v * 1 + 0)), (Rcase_abs v); nra.
Qed.

(** X20: the docstring of [Maxout]: with two pieces, intercepts 0 and the
    slopes [(r, 1)], a Maxout activation computes what a [Prelu] with leak
    rate [r] computes.  This holds when no leak rate exceeds 1: then the two
    transforms give the same outcome on every tensor of shape (..., n). *)
Theorem Maxout_generalises_Prelu (m p : Instance) (ls li lk : loc)
    (leak : list R) (x : list (list R)) (st : State) :
  i_cls m = CMaxout -> i_cls p = CPrelu ->
  i_tensors m !! "slope" = Some ls ->
  i_tensors m !! "intercept" = Some li ->
  i_tensors p !! "leak" = Some lk ->
  sv_value <$> shared st !! ls = Some (Mat (map (fun r => [r; 1]) leak)) ->
  sv_value <$> shared st !! li = Some (Vec [0; 0]) ->
  sv_value <$> shared st !! lk = Some (Vec leak) ->
  Forall (fun r => r <= 1) leak ->
  last_axis (length leak) x ->
  call (AInst m) x st = call (AInst p) x st.
Proof.
  intros Hm Hp Hs Hi Hk Hsv Hiv Hkv Hle Hx.
  simpl. unfold Instance_call. rewrite Hm, Hp.
  erewrite Maxout_call_elementwise; try eassumption.
  - erewrite Prelu_call_elementwise; try eassumption.
    f_equal. f_equal. apply map_ext. intros r.
    clear -Hle. revert r. induction Hle as [|l leak Hl _ IH]; intros [|v r];
      simpl; try reflexivity.
    rewrite maxout_unit_prelu by assumption. f_equal. apply IH.
  - apply Forall_map, Forall_forall. intros r _. reflexivity.
  - discriminate.
  - rewrite length_map. exact Hx.
Qed.

Lemma Maxout_generalises_Prelu_witness :
  call (AInst (mkInstance CMaxout "maxout" layer1 {["pieces" := PInt 2]}
                 [0; 1]%nat (Some (PInt 2))
                 (<["intercept" := 1%nat]> (<["slope" := 0%nat]> ∅))))
    [[-3]; [4]]
    (mkState [mkShared "out.slope" (Mat [[1 / 10; 1]]);
              mkShared "out.intercept" (Vec [0; 0]);
              mkShared "out.leak" (Vec [1 / 10])] [] (fun _ => no_attrs))
  = call (AInst (mkInstance CPrelu "prelu" layer1 ∅ [2]%nat None
                   (<["leak" := 2%nat]> ∅)))
      [[-3]; [4]]
      (mkState [mkShared "out.slope" (Mat [[1 / 10; 1]]);
                mkShared "out.intercept" (Vec [0; 0]);
                mkShared "out.leak" (Vec [1 / 10])] [] (fun _ => no_attrs)).
Proof.
  apply (Maxout_generalises_Prelu _ _ 0%nat 1%nat 2%nat [1 / 10]);
    try reflexivity.
  - repeat constructor. lra.
  - repeat constructor.
Defined.

(** The condition on the leak rates is needed.  With a leak rate above 1
    the two activations differ: for leak rate 2 and the entry 1, Maxout with
    slopes (2, 1) gives 2 where Prelu gives 1. *)
Lemma Maxout_differs_from_Prelu_above_one :
  maxout_unit [0; 0] 1 [2; 1] = 2 /\ prelu_elem 2 1 = 1.
Proof.
  split.
  - unfold maxout_unit, maxout_pieces. simpl. unfold Rmax.
    destruct (Rle_dec (1 * 2 + 0) (1 * 1 + 0)); lra.
  - apply prelu_elem_cases. lra.
Qed.
